(** * Audio pipeline of the Gemini front end: codec, poller and live session

    A shallow embedding of [src/services/geminiService.ts].

    - JavaScript numbers that hold integers are [Z]; the conversions the
      typed arrays and the [DataView] apply on a store ([ToUint8],
      [ToUint16], [ToUint32], [ToInt16]) are written out.  Every integer the
      code computes stays far below 2^53, where doubles are exact.
    - A [Uint8Array] is a [list Z] of values in [0, 256); a JavaScript
      string is the list of its UTF-16 code units.
    - Code that can throw returns a [result]. *)

From Stdlib Require Import ZArith QArith List String Ascii Lia.
From stdpp Require Import base option list gmap strings.

#[local] Set Warnings "-clear-no-such-hyp".

Local Open Scope Z_scope.

(** ** JavaScript values *)

Module Js.

(** The exceptions this file's code can meet.  [Error] is a plain
    JavaScript [Error] with its [message]. *)
Inductive exn : Type :=
  | InvalidCharacterError
  | RangeError
  | NotSupportedError
  | InvalidStateError
  | NotAllowedError
  | TypeError
  | Error (message : string).

Inductive result (A : Type) : Type :=
  | Ok (a : A)
  | Throw (e : exn).
Arguments Ok {A} a.
Arguments Throw {A} e.

#[export] Instance result_ret : MRet result := fun A a => Ok a.
#[export] Instance result_bind : MBind result := fun A B f m =>
  match m with
  | Ok a => f a
  | Throw e => Throw e
  end.

(** A string is the list of its code units. *)
Definition jsstring : Type := list Z.

Definition of_string (s : string) : jsstring :=
  map (fun a => Z.of_N (N_of_ascii a)) (list_ascii_of_string s).

(** Integer conversions of ECMAScript, on integral arguments. *)
Definition ToUint8 (z : Z) : Z := z mod 256.
Definition ToUint16 (z : Z) : Z := z mod 65536.
Definition ToUint32 (z : Z) : Z := z mod 4294967296.
Definition ToInt16 (z : Z) : Z :=
  let m := z mod 65536 in if 32768 <=? m then m - 65536 else m.

Definition u8 (z : Z) : Prop := 0 <= z < 256.

(** [truncate q]: the integral part of a finite number, rounding towards
    zero (the first step of every ToIntN conversion). *)
Definition truncate (q : Q) : Z := Z.quot (Qnum q) (Z.pos (Qden q)).

End Js.
Import Js.

(** ** Base64: the platform's [btoa] and [atob]

    Both are browser built-ins.  They are written here after the HTML
    standard: [btoa] refuses a code unit above U+00FF and otherwise applies
    RFC 4648 base64 with padding; [atob] is the "forgiving-base64 decode" of
    the Infra standard. *)

Module Base64.

Definition b64_char (s : Z) : Z :=
  if s <? 26 then s + 65          (* A-Z *)
  else if s <? 52 then s + 71     (* a-z *)
  else if s <? 62 then s - 4      (* 0-9 *)
  else if s =? 62 then 43         (* + *)
  else 47.                        (* / *)

Definition b64_index (c : Z) : option Z :=
  if (65 <=? c) && (c <=? 90) then Some (c - 65)
  else if (97 <=? c) && (c <=? 122) then Some (c - 71)
  else if (48 <=? c) && (c <=? 57) then Some (c + 4)
  else if c =? 43 then Some 62
  else if c =? 47 then Some 63
  else None.

Definition equals_sign : Z := 61.

Fixpoint encode_bytes (bs : list Z) : jsstring :=
  match bs with
  | a :: b :: c :: rest =>
      let n := (a * 256 + b) * 256 + c in
      b64_char (n / 262144) :: b64_char ((n / 4096) mod 64)
        :: b64_char ((n / 64) mod 64) :: b64_char (n mod 64)
        :: encode_bytes rest
  | [a; b] =>
      let n := (a * 256 + b) * 4 in
      [b64_char (n / 4096); b64_char ((n / 64) mod 64); b64_char (n mod 64);
       equals_sign]
  | [a] =>
      let n := a * 16 in
      [b64_char (n / 64); b64_char (n mod 64); equals_sign; equals_sign]
  | [] => []
  end.

Definition btoa (data : jsstring) : result jsstring :=
  if forallb (fun c => (0 <=? c) && (c <=? 255)) data
  then Ok (encode_bytes data)
  else Throw InvalidCharacterError.

Definition is_ascii_whitespace (c : Z) : bool :=
  (c =? 9) || (c =? 10) || (c =? 12) || (c =? 13) || (c =? 32).

(** Drop one trailing [=], if there is one. *)
Definition strip_equals (data : jsstring) : option jsstring :=
  match rev data with
  | c :: r => if c =? equals_sign then Some (rev r) else None
  | [] => None
  end.

(** "If data's length divides by 4 leaving no remainder, then if data ends
    with one or two U+003D (=) code points, remove them." *)
Definition remove_padding (data : jsstring) : jsstring :=
  if (length data mod 4 =? 0)%nat then
    match strip_equals data with
    | Some d1 => match strip_equals d1 with Some d2 => d2 | None => d1 end
    | None => data
    end
  else data.

(** The bit buffer of the decoder: 24 bits give three bytes; at the end 18
    bits give two bytes (two bits discarded) and 12 bits give one (four
    bits discarded). *)
Fixpoint decode_sextets (ss : list Z) : list Z :=
  match ss with
  | s1 :: s2 :: s3 :: s4 :: rest =>
      let n := ((s1 * 64 + s2) * 64 + s3) * 64 + s4 in
      n / 65536 :: (n / 256) mod 256 :: n mod 256 :: decode_sextets rest
  | [s1; s2; s3] =>
      let n := ((s1 * 64 + s2) * 64 + s3) / 4 in
      [n / 256; n mod 256]
  | [s1; s2] => [(s1 * 64 + s2) / 16]
  | _ => []
  end.

Definition sextet (s : Z) : Prop := 0 <= s < 64.

(** The 6-bit groups and the padding [encode_bytes] produces, apart. *)
Fixpoint sextets (bs : list Z) : list Z :=
  match bs with
  | a :: b :: c :: rest =>
      let n := (a * 256 + b) * 256 + c in
      n / 262144 :: (n / 4096) mod 64 :: (n / 64) mod 64 :: n mod 64
        :: sextets rest
  | [a; b] =>
      let n := (a * 256 + b) * 4 in
      [n / 4096; (n / 64) mod 64; n mod 64]
  | [a] => let n := a * 16 in [n / 64; n mod 64]
  | [] => []
  end.

Fixpoint padding (bs : list Z) : jsstring :=
  match bs with
  | _ :: _ :: _ :: rest => padding rest
  | [_; _] => [equals_sign]
  | [_] => [equals_sign; equals_sign]
  | [] => []
  end.

Definition atob (data : jsstring) : result jsstring :=
  let data := List.filter (fun c => negb (is_ascii_whitespace c)) data in
  let data := remove_padding data in
  if (length data mod 4 =? 1)%nat then Throw InvalidCharacterError
  else match mapM b64_index data with
       | None => Throw InvalidCharacterError
       | Some ss => Ok (decode_sextets ss)
       end.

End Base64.

(** ** The binary codec of the service *)

Module Codec.
Import Base64.

(** [decode]: [atob], then [bytes[i] = binaryString.charCodeAt(i)]. *)
Definition decode (base64 : jsstring) : result (list Z) :=
  binaryString ← atob base64;
  mret (map ToUint8 binaryString).

(** [encode]: [binary += String.fromCharCode(bytes[i])], then [btoa]. *)
Definition encode (bytes : list Z) : result jsstring :=
  btoa (map ToUint16 bytes).

(** *** 16-bit views

    [new Int16Array(data.buffer)] reads the buffer two bytes at a time in
    platform byte order (little-endian on every platform a browser runs
    on) and throws a [RangeError] when the byte length is odd.  [decode]
    allocates its array itself, so [data.buffer] holds exactly [data]. *)
Fixpoint int16_view (bytes : list Z) : list Z :=
  match bytes with
  | lo :: hi :: rest => ToInt16 (lo + 256 * hi) :: int16_view rest
  | _ => []
  end.

Definition Int16Array_of_buffer (bytes : list Z) : result (list Z) :=
  if (length bytes mod 2 =? 0)%nat then Ok (int16_view bytes)
  else Throw RangeError.

(** [new Uint8Array(int16.buffer)]: the bytes of 16-bit samples. *)
Definition Uint8Array_of_int16 (samples : list Z) : list Z :=
  flat_map (fun s => [ToUint16 s mod 256; ToUint16 s / 256]) samples.

(** *** Audio buffers *)
Record AudioBuffer : Type := {
  numberOfChannels : Z;
  buffer_length : Z;          (* sample frames *)
  buffer_sampleRate : Z;
  channelData : list (list Q)
}.

(** [BaseAudioContext.createBuffer(unsigned long, unsigned long, float)].
    The two counts go through [ToUint32]; a zero count, or a value outside
    the nominal range, is a [NotSupportedError].  The limits are those every
    implementation has to support (32 channels, 8000 to 96000 Hz). *)
Definition createBuffer (numChannels : Z) (length : Q) (sampleRate : Z)
  : result AudioBuffer :=
  let channels := ToUint32 numChannels in
  let frames := ToUint32 (truncate length) in
  if (1 <=? channels) && (channels <=? 32) && (1 <=? frames)
     && (8000 <=? sampleRate) && (sampleRate <=? 96000)
  then Ok {| numberOfChannels := channels;
             buffer_length := frames;
             buffer_sampleRate := sampleRate;
             channelData :=
               replicate (Z.to_nat channels) (replicate (Z.to_nat frames) 0%Q) |}
  else Throw NotSupportedError.

(** The two loops of [decodeAudioData], for one channel: frame [i] gets
    [dataInt16[i * numChannels + channel] / 32768.0].  A store at an index
    past the channel's length changes nothing, so only the frames the
    buffer has are computed.  The quotient of a 16-bit integer by 2^15 is
    exact in single precision. *)
Definition fill_channel (dataInt16 : list Z) (numChannels : Z) (frames : Z)
    (channel : nat) : list Q :=
  map (fun i : nat =>
         match dataInt16 !! (i * Z.to_nat numChannels + channel)%nat with
         | Some s => (s # 32768)%Q
         | None => 0%Q
         end)
      (seq 0 (Z.to_nat frames)).

Definition decodeAudioData (data : list Z) (sampleRate numChannels : Z)
  : result AudioBuffer :=
  dataInt16 ← Int16Array_of_buffer data;
  let frameCount : Q := ((Z.of_nat (length dataInt16) # 1) / (numChannels # 1))%Q in
  buffer ← createBuffer numChannels frameCount sampleRate;
  mret {| numberOfChannels := numberOfChannels buffer;
          buffer_length := buffer_length buffer;
          buffer_sampleRate := buffer_sampleRate buffer;
          channelData :=
            map (fill_channel dataInt16 numChannels (buffer_length buffer))
                (seq 0 (Z.to_nat (numberOfChannels buffer))) |}.

(** *** DataView

    The writes of [pcmToWav] go through one [DataView] over a fresh buffer:
    a state monad over the buffer's bytes, in which a store outside the
    buffer throws a [RangeError]. *)
Definition view (A : Type) : Type := list Z -> result (A * list Z).

#[export] Instance view_ret : MRet view := fun A a buf => Ok (a, buf).
#[export] Instance view_bind : MBind view := fun A B f m buf =>
  match m buf with
  | Ok (a, buf') => f a buf'
  | Throw e => Throw e
  end.

(** The [n] low bytes of [v], least significant first. *)
Fixpoint le_bytes (n : nat) (v : Z) : list Z :=
  match n with
  | O => []
  | S k => v mod 256 :: le_bytes k (v / 256)
  end.

Definition store (byteOffset : nat) (bytes : list Z) : view unit :=
  fun buf =>
    if (byteOffset + length bytes <=? length buf)%nat
    then Ok (tt, list_inserts byteOffset bytes buf)
    else Throw RangeError.

Definition setUint8 (byteOffset : nat) (value : Q) : view unit :=
  store byteOffset [ToUint8 (truncate value)].

Definition setUint16 (byteOffset : nat) (value : Q) (littleEndian : bool)
  : view unit :=
  let bytes := le_bytes 2 (ToUint16 (truncate value)) in
  store byteOffset (if littleEndian then bytes else rev bytes).

Definition setUint32 (byteOffset : nat) (value : Q) (littleEndian : bool)
  : view unit :=
  let bytes := le_bytes 4 (ToUint32 (truncate value)) in
  store byteOffset (if littleEndian then bytes else rev bytes).

(** [writeString]: one [setUint8] per code unit, in order. *)
Fixpoint writeString (offset : nat) (str : jsstring) : view unit :=
  match str with
  | [] => mret tt
  | c :: rest => setUint8 offset (c # 1) ≫= fun _ => writeString (S offset) rest
  end.

Record Blob : Type := { blob_bytes : list Z; blob_type : string }.

(** [new Uint8Array(buffer, 44).set(pcmData)]: a [RangeError] when the
    source does not fit the target. *)
Definition Uint8Array_set (byteOffset : nat) (source : list Z) : view unit :=
  store byteOffset source.

(** The byte rate and the block align are products of the parameters.
    They are computed here on exact rationals, which is what the doubles of
    the code give for whole numbers as long as the products stay below
    2^53. *)
Definition pcmToWav (pcmData : list Z) (sampleRate numChannels bitsPerSample : Q)
  : result Blob :=
  let dataSize : Q := Z.of_nat (length pcmData) # 1 in
  let buffer := replicate (44 + length pcmData) 0 in
  let writes : view unit :=
    (* RIFF chunk descriptor *)
    writeString 0 (of_string "RIFF") ≫= fun _ =>
    setUint32 4 (36 + dataSize)%Q true ≫= fun _ =>
    writeString 8 (of_string "WAVE") ≫= fun _ =>
    (* "fmt " sub-chunk *)
    writeString 12 (of_string "fmt ") ≫= fun _ =>
    setUint32 16 16%Q true ≫= fun _ =>
    setUint16 20 1%Q true ≫= fun _ =>
    setUint16 22 numChannels true ≫= fun _ =>
    setUint32 24 sampleRate true ≫= fun _ =>
    setUint32 28 (sampleRate * numChannels * (bitsPerSample / 8))%Q true ≫= fun _ =>
    setUint16 32 (numChannels * (bitsPerSample / 8))%Q true ≫= fun _ =>
    setUint16 34 bitsPerSample true ≫= fun _ =>
    (* "data" sub-chunk *)
    writeString 36 (of_string "data") ≫= fun _ =>
    setUint32 40 dataSize true ≫= fun _ =>
    (* PCM data *)
    Uint8Array_set 44 pcmData
  in
  '(_, bytes) ← writes buffer;
  mret {| blob_bytes := bytes; blob_type := "audio/wav" |}.

(** The capture path: [int16[i] = inputData[i] * 32768].  The product of a
    single-precision sample by 2^15 is exact; the store into the
    [Int16Array] applies [ToInt16]. *)
Definition float_to_int16 (sample : Q) : Z :=
  ToInt16 (truncate (sample * 32768)%Q).

Record PcmBlob : Type := { pcm_data : jsstring; pcm_mimeType : string }.

Definition onaudioprocess (inputData : list Q) : result PcmBlob :=
  let int16 := map float_to_int16 inputData in
  data ← encode (Uint8Array_of_int16 int16);
  mret {| pcm_data := data; pcm_mimeType := "audio/pcm;rate=16000" |}.

(** The canonical 44-byte header, field by field, as the standard lays it
    out: what the stores of [pcmToWav] are compared with. *)
Definition wav_header (dataSize : Z) (sampleRate numChannels bitsPerSample : Q)
  : list Z :=
  of_string "RIFF"
  ++ le_bytes 4 (ToUint32 (36 + dataSize))
  ++ of_string "WAVE"
  ++ of_string "fmt "
  ++ le_bytes 4 16
  ++ le_bytes 2 1
  ++ le_bytes 2 (ToUint16 (truncate numChannels))
  ++ le_bytes 4 (ToUint32 (truncate sampleRate))
  ++ le_bytes 4 (ToUint32 (truncate (sampleRate * numChannels * (bitsPerSample / 8))%Q))
  ++ le_bytes 2 (ToUint16 (truncate (numChannels * (bitsPerSample / 8))%Q))
  ++ le_bytes 2 (ToUint16 (truncate bitsPerSample))
  ++ of_string "data"
  ++ le_bytes 4 (ToUint32 dataSize).

(** The values an [Int16Array] holds. *)
Definition int16 (s : Z) : Prop := -32768 <= s < 32768.

(** Fields of a WAV header, read back from the bytes. *)
Definition read_le (bytes : list Z) : Z :=
  foldr (fun b acc => b + 256 * acc) 0 bytes.

Definition field (offset size : nat) (bytes : list Z) : list Z :=
  take size (drop offset bytes).

End Codec.

(** ** The long-running operation poller *)

Module Poller.

Record VeoGenerationState : Type := {
  progress : Z;
  message : string;
  videoUrl : option string;
  error : option string
}.

(** What the poller reads of an operation: [done] (a missing [done] counts
    as [false] in [!currentOperation.done]), and
    [response?.generatedVideos?.[0]?.video?.uri]. *)
Record Operation : Type := {
  done : bool;
  uri : option string
}.

(** One [getVideosOperation] call, as the poller sees it: it resolves with
    the refreshed operation, or it rejects with an [Error] (the SDK's
    [ApiError], a network [TypeError]) whose [message] is a string. *)
Inductive fetch : Type :=
  | Fetched (op : Operation)
  | Failed (msg : string).

(** Where a run stands once the responses at hand are used up: the generator
    returned, or it is suspended in the loop until the next response. *)
Inductive status : Type := Finished | Polling.

Record run : Type := {
  emitted : list VeoGenerationState;
  state : status;
  unread : list fetch
}.

Section WithKey.

Variable API_KEY : string.

(** The code after the loop.  [if (downloadLink)] is false for a missing
    link and for the empty string. *)
Definition completed (currentOperation : Operation) : VeoGenerationState :=
  match uri currentOperation with
  | Some (String c rest as downloadLink) =>
      {| progress := 100; message := "Video generated successfully!";
         videoUrl := Some (downloadLink ++ "&key=" ++ API_KEY)%string;
         error := None |}
  | _ =>
      {| progress := 100; message := "Generation failed to produce a video.";
         videoUrl := None;
         error := Some "No video URI found in response."%string |}
  end.

Definition processing (progress : Z) : VeoGenerationState :=
  {| progress := progress; message := "Processing video...";
     videoUrl := None; error := None |}.

Definition polling_failed (msg : string) : VeoGenerationState :=
  {| progress := 100; message := "Polling failed.";
     videoUrl := None; error := Some msg |}.

(** The [while] loop and what follows it, against the responses the
    successive polls receive. *)
Fixpoint poll_loop (currentOperation : Operation) (progress : Z)
    (responses : list fetch) : run :=
  if done currentOperation then
    {| emitted := [completed currentOperation]; state := Finished;
       unread := responses |}
  else
    match responses with
    | [] => {| emitted := []; state := Polling; unread := [] |}
    | Fetched op :: rest =>
        let progress := Z.min (progress + 5) 95 in
        let r := poll_loop op progress rest in
        {| emitted := processing progress :: emitted r; state := state r;
           unread := unread r |}
    | Failed msg :: rest =>
        {| emitted := [polling_failed msg]; state := Finished;
           unread := rest |}
    end.

Definition started : VeoGenerationState :=
  {| progress := 10;
     message := "Operation started. Waiting for completion...";
     videoUrl := None; error := None |}.

Definition pollVeoOperation (operation : Operation) (responses : list fetch)
  : run :=
  let r := poll_loop operation 10 responses in
  {| emitted := started :: emitted r; state := state r; unread := unread r |}.

End WithKey.

(** A response after which the loop goes on: a fetch that succeeded with
    an operation still running. *)
Definition pending (f : fetch) : bool :=
  match f with
  | Fetched op => negb (done op)
  | Failed _ => false
  end.

Definition progress_values (r : run) : list Z := progress <$> emitted r.

(** The simulated progress after [k] successful polls. *)
Definition simulated (k : nat) : Z := Z.min (10 + 5 * Z.of_nat k) 95.

(** The progress of the snapshot a finished run ends with. *)
Definition closing (s : status) : list Z :=
  match s with
  | Finished => [100]
  | Polling => []
  end.


End Poller.

(** ** The live audio session *)

Module Live.
Import Codec.

(** Times on the output context's clock are doubles.  Playback scheduling
    only adds and takes maxima, so the time type and its operations are kept
    abstract; [t_duration frames rate] is [AudioBuffer.duration]. *)
Class Clock (time : Type) : Type := {
  t_zero : time;
  t_max : time -> time -> time;
  t_add : time -> time -> time;
  t_duration : Z -> Z -> time
}.

(** Exact rational time, for running the model. *)
#[export] Instance Q_clock : Clock Q := {|
  t_zero := 0%Q;
  t_max := fun a b => if Qle_bool a b then b else a;
  t_add := Qplus;
  t_duration := fun frames rate => Qred (frames # Z.to_pos rate)
|}.

(** *** Messages of the remote session *)
Record InlineData : Type := { data : option jsstring }.
Record Part : Type := { inlineData : option InlineData }.
Record Content : Type := { parts : option (list Part) }.
Record ServerContent : Type := {
  modelTurn : option Content;
  interrupted : option bool
}.
Record LiveServerMessage : Type := { serverContent : option ServerContent }.

(** [message.serverContent?.modelTurn?.parts[0]?.inlineData?.data]: the
    index into [parts] is not guarded. *)
Definition base64Audio (message : LiveServerMessage) : result (option jsstring) :=
  match serverContent message with
  | None => Ok None
  | Some sc =>
      match modelTurn sc with
      | None => Ok None
      | Some turn =>
          match parts turn with
          | None => Throw TypeError
          | Some [] => Ok None
          | Some (p :: _) =>
              Ok (match inlineData p with
                  | None => None
                  | Some d => data d
                  end)
          end
      end
  end.

Definition is_interrupted (message : LiveServerMessage) : bool :=
  match serverContent message with
  | Some sc => match interrupted sc with Some b => b | None => false end
  | None => false
  end.

(** A message that carries the audio frame [audio], which decodes to
    [buffer], and no interruption. *)
Definition audio_frame (message : LiveServerMessage) (audio : jsstring)
    (buffer : AudioBuffer) : Prop :=
  base64Audio message = Ok (Some audio)
  /\ audio <> []
  /\ is_interrupted message = false
  /\ decode audio ≫= (fun bytes => decodeAudioData bytes 24000 1) = Ok buffer.

Section Playback.

Context {time : Type} {clock : Clock time}.

(** An [AudioBufferSourceNode] that was started: every node the handler
    creates is started before it is put into [sources]. *)
Record SourceNode : Type := {
  node_buffer : AudioBuffer;
  node_start : time;
  node_stopped : bool
}.

(** The closure variables of the handler.  [nodes] is the store of the
    source nodes created so far, a node's identity being its index;
    [sources] is the [Set] of the nodes scheduled or playing. *)
Record Playback : Type := {
  nextStartTime : time;
  sources : gset nat;
  nodes : list SourceNode
}.

Definition duration (b : AudioBuffer) : time :=
  t_duration (buffer_length b) (buffer_sampleRate b).

(** The [if (base64Audio)] branch. *)
Definition schedule (currentTime : time) (audio : jsstring) (st : Playback)
  : Playback * result unit :=
  let start := t_max (nextStartTime st) currentTime in
  match decode audio ≫= fun bytes => decodeAudioData bytes 24000 1 with
  | Throw e =>
      ({| nextStartTime := start; sources := sources st; nodes := nodes st |},
       Throw e)
  | Ok audioBuffer =>
      let source := length (nodes st) in
      ({| nextStartTime := t_add start (duration audioBuffer);
          sources := {[source]} ∪ sources st;
          nodes := nodes st ++ [{| node_buffer := audioBuffer;
                                   node_start := start;
                                   node_stopped := false |}] |},
       Ok tt)
  end.

Definition stop (n : SourceNode) : SourceNode :=
  {| node_buffer := node_buffer n; node_start := node_start n;
     node_stopped := true |}.

(** One turn of the loop over [sources.values()]. *)
Definition stop_source (source : nat) (st : Playback) : Playback :=
  {| nextStartTime := nextStartTime st;
     sources := sources st ∖ {[source]};
     nodes := alter stop source (nodes st) |}.

(** The [if (message.serverContent?.interrupted)] branch. *)
Definition interrupt (st : Playback) : Playback :=
  let st' := set_fold stop_source st (sources st) in
  {| nextStartTime := t_zero; sources := sources st'; nodes := nodes st' |}.

(** The ['ended'] listener of a source. *)
Definition ended (source : nat) (st : Playback) : Playback :=
  {| nextStartTime := nextStartTime st;
     sources := sources st ∖ {[source]};
     nodes := nodes st |}.

(** [onmessage], run at output-context time [currentTime].  The state it
    returns is the one it leaves behind, also when it throws.  The
    handler first passes the message to the caller's [onMessage], which has
    no access to these variables; messages are handled one at a time, in
    delivery order. *)
Definition onmessage (currentTime : time) (message : LiveServerMessage)
    (st : Playback) : Playback * result unit :=
  match base64Audio message with
  | Throw e => (st, Throw e)
  | Ok audio =>
      let '(st1, r) :=
        match audio with
        | Some (c :: s) => schedule currentTime (c :: s) st
        | _ => (st, Ok tt)
        end in
      match r with
      | Throw e => (st1, Throw e)
      | Ok _ =>
          if is_interrupted message then (interrupt st1, Ok tt)
          else (st1, Ok tt)
      end
  end.

(** [let nextStartTime = 0; const sources = new Set()]. *)
Definition initial : Playback :=
  {| nextStartTime := t_zero; sources := ∅; nodes := [] |}.

(** The states the session's playback can be in: the handler and the
    ['ended'] listeners are the only code that touches it. *)
Inductive reachable : Playback -> Prop :=
  | reach_initial : reachable initial
  | reach_message (currentTime : time) (message : LiveServerMessage) (st : Playback) :
      reachable st -> reachable (fst (onmessage currentTime message st))
  | reach_ended (source : nat) (st : Playback) :
      reachable st -> reachable (ended source st).

End Playback.

Arguments SourceNode time : clear implicits.
Arguments Playback time : clear implicits.

(** Sample traffic: a message with one audio part, the interruption
    signal, and a session that has not played anything yet. *)
Definition frame_message (audio : jsstring) : LiveServerMessage :=
  {| serverContent :=
       Some {| modelTurn :=
                 Some {| parts := Some [{| inlineData := Some {| data := Some audio |} |}] |};
               interrupted := None |} |}.

Definition interruption_message : LiveServerMessage :=
  {| serverContent := Some {| modelTurn := None; interrupted := Some true |} |}.

(** The interruption signal on a message whose model turn has no [parts]
    ([Content.parts] is optional), and on one whose audio is a single byte,
    which is not 16-bit PCM. *)
Definition interruption_without_parts : LiveServerMessage :=
  {| serverContent :=
       Some {| modelTurn := Some {| parts := None |};
               interrupted := Some true |} |}.

Definition interruption_with_audio (audio : jsstring) : LiveServerMessage :=
  {| serverContent :=
       Some {| modelTurn :=
                 Some {| parts := Some [{| inlineData := Some {| data := Some audio |} |}] |};
               interrupted := Some true |} |}.

Definition idle : Playback Q := initial.

(** Two samples, [0] and [16384], and the buffer they decode to. *)
Definition two_samples : jsstring := of_string "AAAAQA==".

Definition two_samples_buffer : AudioBuffer :=
  {| numberOfChannels := 1; buffer_length := 2; buffer_sampleRate := 24000;
     channelData := [[0 # 32768; 16384 # 32768]]%Q |}.

(** *** Resources of a session and [close] *)

Inductive context_state : Type := Running | Closed.
Inductive track_state : Type := LiveTrack | EndedTrack.
Inductive socket_state : Type := SocketOpen | SocketClosed.

(** The variables [close] closes over.  The first three are [null] until
    [onopen] has obtained the microphone. *)
Record Resources : Type := {
  scriptProcessor : option bool;               (* connected? *)
  inputAudioContext : option context_state;
  audioStream : option (list track_state);
  outputAudioContext : context_state;
  session : socket_state
}.

Inductive resource : Type :=
  | CapturePipeline | InputContext | Track (i : nat) | OutputContext
  | RemoteSession.

(** What a release call did: it released the resource, it found it released
    already and did nothing, or (the [close()] of a closed [AudioContext])
    it returned a rejected promise. *)
Inductive outcome : Type := Released | NoEffect | Rejected (e : exn).

Definition call : Type := resource * outcome.

Definition disconnect (connected : bool) : bool * outcome :=
  (false, if connected then Released else NoEffect).

Definition context_close (s : context_state) : context_state * outcome :=
  match s with
  | Running => (Closed, Released)
  | Closed => (Closed, Rejected InvalidStateError)
  end.

Definition track_stop (s : track_state) : track_state * outcome :=
  match s with
  | LiveTrack => (EndedTrack, Released)
  | EndedTrack => (EndedTrack, NoEffect)
  end.

Definition socket_close (s : socket_state) : socket_state * outcome :=
  match s with
  | SocketOpen => (SocketClosed, Released)
  | SocketClosed => (SocketClosed, NoEffect)
  end.

(** [getTracks().forEach(track => track.stop())], from track [i] on. *)
Fixpoint stop_tracks (i : nat) (tracks : list track_state)
  : list track_state * list call :=
  match tracks with
  | [] => ([], [])
  | t :: rest =>
      let '(t', o) := track_stop t in
      let '(rest', log) := stop_tracks (S i) rest in
      (t' :: rest', (Track i, o) :: log)
  end.

(** The statements of [close], one by one.  [?.] skips the call on a
    variable that is still [null]. *)
Definition close_processor (sp : option bool) : option bool * list call :=
  match sp with
  | Some c => let '(c', o) := disconnect c in (Some c', [(CapturePipeline, o)])
  | None => (None, [])
  end.

Definition close_input (ctx : option context_state)
  : option context_state * list call :=
  match ctx with
  | Some s => let '(s', o) := context_close s in (Some s', [(InputContext, o)])
  | None => (None, [])
  end.

Definition close_stream (stream : option (list track_state))
  : option (list track_state) * list call :=
  match stream with
  | Some tracks => let '(tracks', log) := stop_tracks 0 tracks in (Some tracks', log)
  | None => (None, [])
  end.

Definition close_output (s : context_state) : context_state * list call :=
  let '(s', o) := context_close s in (s', [(OutputContext, o)]).

Definition close_session (s : socket_state) : socket_state * list call :=
  let '(s', o) := socket_close s in (s', [(RemoteSession, o)]).

(** [close]: the five statements in order, with the calls they make. *)
Definition close (r : Resources) : Resources * list call :=
  let '(sp, log1) := close_processor (scriptProcessor r) in
  let '(ictx, log2) := close_input (inputAudioContext r) in
  let '(stream, log3) := close_stream (audioStream r) in
  let '(octx, log4) := close_output (outputAudioContext r) in
  let '(sess, log5) := close_session (session r) in
  ({| scriptProcessor := sp; inputAudioContext := ictx; audioStream := stream;
      outputAudioContext := octx; session := sess |},
   log1 ++ log2 ++ log3 ++ log4 ++ log5).

(** A release statement [f] run a second time: it leaves what the first
    run left, makes the same calls, and releases nothing. *)
Definition settled {A : Type} (f : A -> A * list call) (x : A) : Prop :=
  let first := f x in
  let second := f (fst first) in
  fst second = fst first
  /\ map fst (snd second) = map fst (snd first)
  /\ Forall (fun c => snd c <> Released) (snd second).

(** Every resource of the session is in use. *)
Definition all_live (r : Resources) : Prop :=
  scriptProcessor r = Some true
  /\ inputAudioContext r = Some Running
  /\ (exists tracks, audioStream r = Some tracks /\ Forall (eq LiveTrack) tracks)
  /\ outputAudioContext r = Running
  /\ session r = SocketOpen.

(** Nothing of the session is in use any more. *)
Definition all_released (r : Resources) : Prop :=
  scriptProcessor r <> Some true
  /\ inputAudioContext r <> Some Running
  /\ (forall tracks, audioStream r = Some tracks -> Forall (eq EndedTrack) tracks)
  /\ outputAudioContext r = Closed
  /\ session r = SocketClosed.

(** A session in full use, with one microphone track. *)
Definition opened_session : Resources :=
  {| scriptProcessor := Some true; inputAudioContext := Some Running;
     audioStream := Some [LiveTrack]; outputAudioContext := Running;
     session := SocketOpen |}.

(** No release call of the log came back with an error. *)
Definition no_rejection (log : list call) : Prop :=
  Forall (fun c => forall e, snd c <> Rejected e) log.

(** *** Opening a session *)

(** [ai.live.connect]: the socket opens, or the call rejects.  When the
    socket opens the SDK calls [callbacks.onopen()] and drops what it
    returns, then resolves with the session. *)
Inductive connect_outcome : Type := Connected | ConnectFailed (e : exn).

(** [navigator.mediaDevices.getUserMedia]: a stream with its tracks, or a
    rejection ([NotAllowedError] when the user refuses). *)
Inductive media_outcome : Type := Granted (tracks : nat) | Denied (e : exn).

(** The [async] [onopen] callback. *)
Definition onopen (mic : media_outcome) (r : Resources) : Resources * result unit :=
  match mic with
  | Denied e => (r, Throw e)
  | Granted tracks =>
      ({| scriptProcessor := Some true;
          inputAudioContext := Some Running;
          audioStream := Some (replicate tracks LiveTrack);
          outputAudioContext := outputAudioContext r;
          session := session r |}, Ok tt)
  end.

(** What [startLiveConversation] gives its caller: the session handle (the
    resources its [close] works on, once [onopen] has settled) or the
    rejection; and the promise rejections nobody handles. *)
Record Started : Type := {
  returned : result Resources;
  unhandled : list exn
}.

Definition startLiveConversation (conn : connect_outcome) (mic : media_outcome)
  : Started :=
  let r0 := {| scriptProcessor := None; inputAudioContext := None;
               audioStream := None; outputAudioContext := Running;
               session := SocketOpen |} in
  match conn with
  | ConnectFailed e => {| returned := Throw e; unhandled := [] |}
  | Connected =>
      let '(r1, opened) := onopen mic r0 in
      {| returned := Ok r1;
         unhandled := match opened with Throw e => [e] | Ok _ => [] end |}
  end.

End Live.

(** ** Request and response calls of the service *)

Module Service.
Import Codec.

(** What the service reads of a [GenerateContentResponse].  A field the
    response may lack is an [option]. *)
Record InlineData : Type := {
  mimeType : option jsstring;
  data : option jsstring
}.
Record Part : Type := { inlineData : option InlineData; text : option jsstring }.
Record Content : Type := { parts : option (list Part) }.
Record Candidate : Type := { content : option Content }.
Record GenerateContentResponse : Type := { candidates : option (list Candidate) }.

(** [response.candidates?.[0]?.content?.parts]. *)
Definition first_parts (response : GenerateContentResponse) : option (list Part) :=
  cs ← candidates response; c ← head cs; ct ← content c; parts ct.

(** [...parts?.[0]?.inlineData?.data] of [generateSpeech]. *)
Definition speech_audio (response : GenerateContentResponse) : option jsstring :=
  ps ← first_parts response; p ← head ps; d ← inlineData p; data d.

(** [generateSpeech], given what [ai.models.generateContent] settles with.
    The result stands for the object URL, which names the blob. *)
Definition generateSpeech (api : result GenerateContentResponse) : result Blob :=
  response ← api;
  match speech_audio response with
  | Some (c :: s) =>
      audioBytes ← decode (c :: s);
      pcmToWav audioBytes 24000 1 16
  | _ => Throw (Error "No audio data received.")
  end.

(** A value inside a template literal. *)
Definition interpolate (v : option jsstring) : jsstring :=
  match v with
  | Some s => s
  | None => of_string "undefined"
  end.

(** [parts?.find(p => p.inlineData)]. *)
Definition find_inline (ps : list Part) : option Part :=
  List.find (fun p => match inlineData p with Some _ => true | None => false end) ps.

(** [editImage], given what [fileToBase64] and then [generateContent]
    settle with. *)
Definition editImage (base64Data : result jsstring)
    (api : result GenerateContentResponse) : result jsstring :=
  _ ← base64Data;
  response ← api;
  match ps ← first_parts response; part ← find_inline ps; inlineData part with
  | Some d =>
      Ok (of_string "data:" ++ interpolate (mimeType d)
          ++ of_string ";base64," ++ interpolate (data d))
  | None => Throw (Error "No edited image found in response.")
  end.

(** *** The chat request *)
Inductive ChatMode : Type := lite | flash | pro.
Inductive GroundingMode : Type := none | search | maps | auto.
Inductive Tool : Type := googleSearch | googleMaps.

Record LatLng : Type := { latitude : Q; longitude : Q }.

Record Config : Type := {
  tools : option (list Tool);
  toolConfig : option LatLng;          (* retrievalConfig.latLng *)
  thinkingConfig : option Z            (* thinkingBudget *)
}.

Record Request : Type := {
  model : string;
  contents : string;
  config : option Config
}.

Definition modelMap (mode : ChatMode) : string :=
  match mode with
  | lite => "gemini-flash-lite-latest"
  | flash => "gemini-2.5-flash"
  | pro => "gemini-2.5-pro"
  end.

Definition chat_tools (grounding : GroundingMode) : list Tool :=
  (match grounding with search | auto => [googleSearch] | _ => [] end)
  ++ (match grounding with maps | auto => [googleMaps] | _ => [] end).

Definition needsLocation (grounding : GroundingMode) : bool :=
  match grounding with maps | auto => true | _ => false end.

(** The request [generateChatResponseStream] sends.  [position] is what
    [getCurrentPosition] settles with; it is only asked for when
    [needsLocation], and a failure is caught.  A key whose value would be
    empty is left out, and so is an empty [config]. *)
Definition chat_request (prompt : string) (mode : ChatMode)
    (grounding : GroundingMode) (position : result LatLng) : Request :=
  let tools := chat_tools grounding in
  let toolConfig :=
    if needsLocation grounding
    then match position with Ok p => Some p | Throw _ => None end
    else None in
  let thinking := match mode with pro => Some 32768 | _ => None end in
  let config :=
    {| tools := match tools with [] => None | _ => Some tools end;
       toolConfig := toolConfig;
       thinkingConfig := thinking |} in
  {| model := modelMap mode;
     contents := prompt;
     config := match tools, toolConfig, thinking with
               | [], None, None => None
               | _, _, _ => Some config
               end |}.

End Service.

(** ** Logic of the components *)

Module Ui.

(** *** Votes on grounding sources ([Chat]) *)
Inductive Vote : Type := up | down.

#[export] Instance Vote_eq_dec : EqDecision Vote.
Proof. solve_decision. Defined.

(** The updater of [handleVote]: a copy of the record, in which the
    source's vote is deleted when it is clicked again and set otherwise.

    The record is a plain object ([{...prev}], starting from [{}]); the map
    holds its own properties.  A name the object does not own reads as what
    [Object.prototype] has under it, which is never a vote, and an
    assignment to it creates the property.  The one exception is
    ["__proto__"], an accessor of [Object.prototype]: while the object does
    not own it, the read returns the prototype and the assignment goes to
    the setter, which ignores a string, so that the copy is returned as it
    is.  (An own ["__proto__"], which the spread would copy as a data
    property, behaves as any other name; no record built by [handleVote]
    from [{}] has one.) *)
Definition proto : string := "__proto__".

Definition handleVote (uri : string) (vote : Vote) (prev : gmap string Vote)
  : gmap string Vote :=
  if decide (prev !! uri = Some vote) then delete uri prev
  else if decide (uri = proto /\ prev !! uri = None) then prev
  else <[uri := vote]> prev.

(** The records the component can hold: [{}] and what votes make of it. *)
Inductive feedback : gmap string Vote -> Prop :=
  | feedback_empty : feedback ∅
  | feedback_vote (uri : string) (vote : Vote) (prev : gmap string Vote) :
      feedback prev -> feedback (handleVote uri vote prev).

(** *** Download names

    [prompt.substring(0, 30).replace(/[^a-z0-9]/gi, '_').toLowerCase()
     || fallback], on code units. *)
Definition is_alphanumeric (c : Z) : bool :=
  ((48 <=? c) && (c <=? 57)) || ((65 <=? c) && (c <=? 90))
  || ((97 <=? c) && (c <=? 122)).

Definition replace_other (s : jsstring) : jsstring :=
  map (fun c => if is_alphanumeric c then c else 95) s.

(** [toLowerCase] on the ASCII text [replace_other] leaves. *)
Definition toLowerCase (s : jsstring) : jsstring :=
  map (fun c => if (65 <=? c) && (c <=? 90) then c + 32 else c) s.

Definition download_name (prompt fallback : jsstring) : jsstring :=
  match toLowerCase (replace_other (take 30 prompt)) with
  | [] => fallback
  | name => name
  end.

(** A character of a download name: a lower-case letter, a digit or [_]. *)
Definition name_char (c : Z) : Prop :=
  97 <= c <= 122 \/ 48 <= c <= 57 \/ c = 95.

(** *** Transcript of a live conversation ([LiveConversation]) *)
Record Transcription : Type := { text : option string }.
Record ServerContent : Type := {
  inputTranscription : option Transcription;
  outputTranscription : option Transcription;
  turnComplete : option bool
}.
Record LiveServerMessage : Type := { serverContent : option ServerContent }.

(** The two refs and the [transcription] state. *)
Record Transcript : Type := {
  userInput : string;
  modelOutput : string;
  transcription : list string
}.

(** A value that may be [undefined], appended to a string. *)
Definition appended (v : option string) : string :=
  match v with Some s => s | None => "undefined" end.

Definition truthy (v : option string) : bool :=
  match v with Some (String _ _) => true | _ => false end.

Definition handleMessage (message : LiveServerMessage) (st : Transcript)
  : Transcript :=
  let input := serverContent message ≫= inputTranscription in
  let output := serverContent message ≫= outputTranscription in
  let userText := match input with Some t => text t | None => Some EmptyString end in
  let modelText := match output with Some t => text t | None => Some EmptyString end in
  let userInput1 :=
    match input with
    | Some _ => String.append (userInput st) (appended userText)
    | None => userInput st
    end in
  let modelOutput1 :=
    match output with
    | Some _ => String.append (modelOutput st) (appended modelText)
    | None => modelOutput st
    end in
  let lines :=
    if truthy userText || truthy modelText then
      transcription st
      ++ [if truthy userText then String.append "You: " (appended userText)
          else String.append "Model: " (appended modelText)]
    else transcription st in
  match serverContent message ≫= turnComplete with
  | Some true =>
      {| userInput := EmptyString; modelOutput := EmptyString; transcription := lines |}
  | _ =>
      {| userInput := userInput1; modelOutput := modelOutput1; transcription := lines |}
  end.

End Ui.

(** * Properties *)

(** ** Base64 round trip *)

Section Base64Facts.
Import Base64.

Lemma list_ind3 {A} (P : list A -> Prop) :
  P [] -> (forall a, P [a]) -> (forall a b, P [a; b]) ->
  (forall a b c l, P l -> P (a :: b :: c :: l)) ->
  forall l, P l.
Proof.
  intros H0 H1 H2 H3.
  cut (forall l, P l /\ (forall a, P (a :: l)) /\ (forall a b, P (a :: b :: l))).
  { intros Hall l. apply Hall. }
  induction l as [|x l (IH0 & IH1 & IH2)]; repeat split; auto.
Qed.

Lemma b64_index_char s : sextet s -> b64_index (b64_char s) = Some s.
Proof.
  unfold sextet, b64_index, b64_char. intros Hs.
  repeat case_match; try lia; f_equal; lia.
Qed.

Lemma b64_char_plain s :
  sextet s ->
  is_ascii_whitespace (b64_char s) = false /\ (b64_char s =? equals_sign) = false.
Proof.
  unfold sextet, is_ascii_whitespace, b64_char, equals_sign. intros Hs.
  repeat case_match; lia.
Qed.

Lemma sextets_range bs : Forall u8 bs -> Forall sextet (sextets bs).
Proof.
  unfold u8, sextet.
  induction bs as [|a|a b|a b c l IH] using list_ind3; intros Hb; simpl.
  - constructor.
  - inversion_clear Hb. repeat constructor; Z.div_mod_to_equations; lia.
  - inversion_clear Hb as [|? ? Ha Hb']. inversion_clear Hb'.
    repeat constructor; Z.div_mod_to_equations; lia.
  - inversion_clear Hb as [|? ? Ha Hb']. inversion_clear Hb' as [|? ? Hb1 Hc'].
    inversion_clear Hc' as [|? ? Hc Hl].
    repeat (constructor; [Z.div_mod_to_equations; lia|]). auto.
Qed.

Lemma decode_sextets_sextets bs : Forall u8 bs -> decode_sextets (sextets bs) = bs.
Proof.
  unfold u8.
  induction bs as [|a|a b|a b c l IH] using list_ind3; intros Hb; simpl.
  - reflexivity.
  - inversion_clear Hb. f_equal. Z.div_mod_to_equations; lia.
  - inversion_clear Hb as [|? ? Ha Hb']. inversion_clear Hb'.
    f_equal; [|f_equal]; Z.div_mod_to_equations; lia.
  - inversion_clear Hb as [|? ? Ha Hb']. inversion_clear Hb' as [|? ? Hb1 Hc'].
    inversion_clear Hc' as [|? ? Hc Hl].
    rewrite IH by assumption.
    f_equal; [|f_equal; [|f_equal]]; Z.div_mod_to_equations; lia.
Qed.

Lemma encode_bytes_shape bs :
  encode_bytes bs = map b64_char (sextets bs) ++ padding bs.
Proof.
  induction bs as [|a|a b|a b c l IH] using list_ind3; simpl; try reflexivity.
  now rewrite IH.
Qed.

(** Lengths: four characters for every three bytes, and a last group that
    never holds a single sextet. *)
Lemma sextets_length bs :
  ((length (sextets bs) + length (padding bs)) mod 4 = 0
   /\ length (sextets bs) mod 4 <> 1)%nat.
Proof.
  induction bs as [|a|a b|a b c l IH] using list_ind3;
    try (split; [reflexivity | discriminate]).
  cbn [sextets padding length].
  generalize dependent (length (sextets l)).
  generalize (length (padding l)). intros p n [IH1 IH2].
  split.
  - replace (S (S (S (S n))) + p)%nat with (n + p + 1 * 4)%nat by lia.
    now rewrite Nat.Div0.mod_add.
  - replace (S (S (S (S n))))%nat with (n + 1 * 4)%nat by lia.
    now rewrite Nat.Div0.mod_add.
Qed.

Lemma padding_cases bs :
  padding bs = [] \/ padding bs = [equals_sign]
  \/ padding bs = [equals_sign; equals_sign].
Proof.
  induction bs as [|a|a b|a b c l IH] using list_ind3; simpl; auto.
Qed.

Lemma filter_plain (l : jsstring) :
  Forall (fun c => is_ascii_whitespace c = false) l ->
  List.filter (fun c => negb (is_ascii_whitespace c)) l = l.
Proof.
  induction 1 as [|c l Hc _ IH]; simpl; [reflexivity|].
  rewrite Hc. simpl. now rewrite IH.
Qed.

Lemma strip_equals_snoc (l : jsstring) :
  strip_equals (l ++ [equals_sign]) = Some l.
Proof.
  unfold strip_equals. rewrite rev_unit, Z.eqb_refl. now rewrite rev_involutive.
Qed.

Lemma strip_equals_chars ss :
  Forall sextet ss -> strip_equals (map b64_char ss) = None.
Proof.
  intros Hss. unfold strip_equals.
  destruct ss as [|s ss'] using rev_ind; [reflexivity|].
  rewrite map_app. cbn [map]. rewrite rev_unit.
  apply Forall_app in Hss as [_ Hs]. inversion_clear Hs as [|? ? Hs' _].
  now destruct (b64_char_plain _ Hs') as [_ ->].
Qed.

Lemma remove_padding_encoded ss (p : jsstring) :
  Forall sextet ss ->
  p = [] \/ p = [equals_sign] \/ p = [equals_sign; equals_sign] ->
  ((length ss + length p) mod 4 = 0)%nat ->
  remove_padding (map b64_char ss ++ p) = map b64_char ss.
Proof.
  intros Hss Hp Hlen. unfold remove_padding.
  rewrite length_app, length_map, Hlen. simpl.
  destruct Hp as [-> | [-> | ->]].
  - rewrite app_nil_r, strip_equals_chars by assumption. reflexivity.
  - rewrite strip_equals_snoc, strip_equals_chars by assumption. reflexivity.
  - change [equals_sign; equals_sign] with ([equals_sign] ++ [equals_sign]).
    rewrite app_assoc, !strip_equals_snoc. reflexivity.
Qed.

Lemma mapM_index_chars ss :
  Forall sextet ss -> mapM b64_index (map b64_char ss) = Some ss.
Proof.
  intros Hss. apply mapM_Some. induction Hss; simpl; constructor; auto.
  now apply b64_index_char.
Qed.

Lemma atob_encode_bytes bs :
  Forall u8 bs -> atob (encode_bytes bs) = Ok bs.
Proof.
  intros Hbs. unfold atob.
  pose proof (sextets_range _ Hbs) as Hss.
  destruct (sextets_length bs) as [Hlen Hone].
  rewrite encode_bytes_shape, filter_plain.
  - rewrite remove_padding_encoded by auto using padding_cases.
    rewrite length_map.
    destruct (Nat.eqb_spec (length (sextets bs) mod 4) 1) as [E|_]; [contradiction|].
    rewrite mapM_index_chars by assumption.
    now rewrite decode_sextets_sextets.
  - apply Forall_app; split.
    + apply Forall_map. eapply Forall_impl; [exact Hss|].
      intros s Hs. now destruct (b64_char_plain _ Hs).
    + destruct (padding_cases bs) as [-> | [-> | ->]]; repeat constructor.
Qed.

Lemma map_ToUint16_bytes bs : Forall u8 bs -> map ToUint16 bs = bs.
Proof.
  induction 1 as [|b l Hb _ IH]; simpl; [reflexivity|].
  rewrite IH. f_equal. unfold ToUint16, u8 in *. apply Z.mod_small. lia.
Qed.

Lemma map_ToUint8_bytes bs : Forall u8 bs -> map ToUint8 bs = bs.
Proof.
  induction 1 as [|b l Hb _ IH]; simpl; [reflexivity|].
  rewrite IH. f_equal. unfold ToUint8, u8 in *. apply Z.mod_small. lia.
Qed.

Lemma btoa_bytes bs : Forall u8 bs -> btoa bs = Ok (encode_bytes bs).
Proof.
  intros Hbs. unfold btoa.
  replace (forallb _ bs) with true; [reflexivity|].
  symmetry. apply forallb_forall. intros c Hc.
  rewrite List.Forall_forall in Hbs. specialize (Hbs c Hc). unfold u8 in Hbs. lia.
Qed.

End Base64Facts.

Section CodecFacts.
Import Base64 Codec.

(** C1.  Decoding the base64 text that [encode] produces for a byte array
    gives the byte array back: [encode] succeeds on every byte array, and
    [decode] of its result succeeds with the same bytes. *)
Theorem decode_encode_roundtrip (b : list Z) :
  Forall u8 b -> encode b ≫= decode = Ok b.
Proof.
  intros Hb. unfold encode.
  rewrite map_ToUint16_bytes, btoa_bytes by assumption. simpl.
  unfold decode. rewrite atob_encode_bytes by assumption. simpl.
  unfold mret, result_ret. now rewrite map_ToUint8_bytes.
Qed.

Lemma decode_encode_roundtrip_witness :
  Forall u8 [72; 105; 0; 255] /\
  encode [72; 105; 0; 255] ≫= decode = Ok [72; 105; 0; 255].
Proof.
  assert (Hb : Forall u8 [72; 105; 0; 255])
    by (repeat constructor; unfold u8; lia).
  split; [exact Hb | exact (decode_encode_roundtrip _ Hb)].
Defined.

Example encode_hello :
  encode (of_string "Hello") = Ok (of_string "SGVsbG8=").
Proof. reflexivity. Qed.

Example decode_forgiving :
  decode (of_string " SGVs bG8") = Ok (of_string "Hello").
Proof. reflexivity. Qed.

Example decode_malformed :
  decode (of_string "SGVsb") = Throw InvalidCharacterError.
Proof. reflexivity. Qed.

(** *** The WAV writer *)

Lemma truncate_integer (z : Z) : truncate (z # 1) = z.
Proof. unfold truncate. simpl. apply Z.quot_1_r. Qed.

Lemma truncate_plus_integer (a z : Z) : truncate ((a # 1) + (z # 1))%Q = a + z.
Proof. unfold truncate. simpl. rewrite Z.quot_1_r. lia. Qed.

Lemma read_le_le_bytes (n : nat) (v : Z) :
  0 <= v < 256 ^ Z.of_nat n -> read_le (le_bytes n v) = v.
Proof.
  revert v. induction n as [|n IH]; intros v Hv.
  - simpl in *. lia.
  - cbn [le_bytes read_le foldr]. fold (read_le (le_bytes n (v / 256))).
    rewrite IH.
    + Z.div_mod_to_equations; lia.
    + rewrite Nat2Z.inj_succ, Z.pow_succ_r in Hv by lia.
      Z.div_mod_to_equations; nia.
Qed.

Lemma le_bytes_u8 (n : nat) (v : Z) : Forall u8 (le_bytes n v).
Proof.
  revert v. induction n as [|n IH]; intros v; simpl; constructor; auto.
  unfold u8. Z.div_mod_to_equations; lia.
Qed.

(** A store that falls inside an explicit prefix of the buffer. *)
Lemma store_prefix (off : nat) (bs h rest : list Z) :
  (off + length bs <= length h)%nat ->
  store off bs (h ++ rest) = Ok (tt, list_inserts off bs h ++ rest).
Proof.
  intros Hin. unfold store. rewrite length_app.
  destruct (Nat.leb_spec (off + length bs) (length h + length rest)) as [_|]; [|lia].
  do 2 f_equal. revert off Hin.
  induction bs as [|b bs IH]; intros off Hin; simpl in *; [reflexivity|].
  rewrite IH by lia. rewrite insert_app_l; [reflexivity|].
  rewrite length_inserts. lia.
Qed.

Lemma writeString_prefix (off : nat) (str : jsstring) (h rest : list Z) :
  (off + length str <= length h)%nat ->
  writeString off str (h ++ rest) =
  Ok (tt, list_inserts off (map (fun c => ToUint8 (truncate (c # 1))) str) h ++ rest).
Proof.
  revert off h. induction str as [|c str IH]; intros off h Hin; [reflexivity|].
  cbn [writeString]. unfold mbind, view_bind, setUint8.
  rewrite store_prefix by (simpl in *; lia).
  rewrite IH by (rewrite length_inserts; simpl in *; lia).
  do 3 f_equal. cbn [list_inserts map].
  now rewrite list_insert_inserts_lt by lia.
Qed.

(** A store that fills the rest of the buffer exactly. *)
Lemma store_suffix (off : nat) (bs h rest : list Z) :
  length h = off -> length rest = length bs ->
  store off bs (h ++ rest) = Ok (tt, h ++ bs).
Proof.
  intros <- Hlen. unfold store. rewrite length_app, Hlen, Nat.leb_refl.
  do 2 f_equal.
  rewrite <- (Nat.add_0_r (length h)), list_inserts_app_r.
  f_equal. rewrite <- (app_nil_r rest).
  rewrite list_inserts_0_r by congruence. apply app_nil_r.
Qed.

Lemma length_le_bytes (n : nat) (v : Z) : length (le_bytes n v) = n.
Proof. revert v. induction n; intros v; simpl; auto. Qed.

Ltac header_store :=
  first [ rewrite writeString_prefix | rewrite store_prefix ];
  [ | rewrite ?length_inserts, ?length_le_bytes, length_replicate; simpl; lia ].

(** The stores of [pcmToWav], taken together, write the canonical header
    and then the payload. *)
Lemma pcmToWav_bytes (pcmData : list Z) (sampleRate numChannels bitsPerSample : Q) :
  pcmToWav pcmData sampleRate numChannels bitsPerSample =
  Ok {| blob_bytes :=
          wav_header (Z.of_nat (length pcmData)) sampleRate numChannels bitsPerSample
          ++ pcmData;
        blob_type := "audio/wav" |}.
Proof.
  unfold pcmToWav, wav_header. cbv zeta.
  unfold setUint16, setUint32, Uint8Array_set.
  rewrite truncate_plus_integer, truncate_integer.
  change (truncate 16%Q) with 16. change (truncate 1%Q) with 1.
  change (ToUint32 16) with 16. change (ToUint16 1) with 1.
  generalize (ToUint32 (36 + Z.of_nat (length pcmData))).
  generalize (ToUint16 (truncate numChannels)).
  generalize (ToUint32 (truncate sampleRate)).
  generalize (ToUint32 (truncate (sampleRate * numChannels * (bitsPerSample / 8))%Q)).
  generalize (ToUint16 (truncate (numChannels * (bitsPerSample / 8))%Q)).
  generalize (ToUint16 (truncate bitsPerSample)).
  generalize (ToUint32 (Z.of_nat (length pcmData))).
  intros dataSize bits blockAlign byteRate rate channels chunkSize.
  rewrite replicate_add.
  generalize (replicate (length pcmData) 0) (length_replicate (length pcmData) 0).
  intros rest Hrest.
  unfold mbind, view_bind.
  do 13 header_store.
  rewrite store_suffix;
    [reflexivity | now rewrite !length_inserts, length_replicate | exact Hrest].
Qed.

Lemma wav_header_fields (n : Z) (sampleRate numChannels bitsPerSample : Q)
    (payload : list Z) :
  let bytes := wav_header n sampleRate numChannels bitsPerSample ++ payload in
  field 0 4 bytes = of_string "RIFF"
  /\ field 4 4 bytes = le_bytes 4 (ToUint32 (36 + n))
  /\ field 8 4 bytes = of_string "WAVE"
  /\ field 12 4 bytes = of_string "fmt "
  /\ field 16 4 bytes = le_bytes 4 16
  /\ field 20 2 bytes = le_bytes 2 1
  /\ field 36 4 bytes = of_string "data"
  /\ field 40 4 bytes = le_bytes 4 (ToUint32 n)
  /\ take 44 bytes = wav_header n sampleRate numChannels bitsPerSample
  /\ drop 44 bytes = payload.
Proof.
  unfold wav_header.
  generalize (ToUint32 (36 + n)).
  generalize (ToUint16 (truncate numChannels)).
  generalize (ToUint32 (truncate sampleRate)).
  generalize (ToUint32 (truncate (sampleRate * numChannels * (bitsPerSample / 8))%Q)).
  generalize (ToUint16 (truncate (numChannels * (bitsPerSample / 8))%Q)).
  generalize (ToUint16 (truncate bitsPerSample)).
  generalize (ToUint32 n).
  intros. repeat split; reflexivity.
Qed.

Lemma wav_header_u8 (n : Z) (sampleRate numChannels bitsPerSample : Q) :
  Forall u8 (wav_header n sampleRate numChannels bitsPerSample).
Proof.
  unfold wav_header.
  repeat (apply Forall_app; split); try apply le_bytes_u8;
    repeat constructor; unfold u8; simpl; lia.
Qed.

(** The five fields of the "fmt " sub-chunk that depend on the parameters:
    each holds the integral part of its number, reduced to the width of the
    field. *)
Lemma wav_header_format_fields (n : Z) (sampleRate numChannels bitsPerSample : Q)
    (payload : list Z) :
  let bytes := wav_header n sampleRate numChannels bitsPerSample ++ payload in
  field 22 2 bytes = le_bytes 2 (ToUint16 (truncate numChannels))
  /\ field 24 4 bytes = le_bytes 4 (ToUint32 (truncate sampleRate))
  /\ field 28 4 bytes =
       le_bytes 4 (ToUint32 (truncate (sampleRate * numChannels * (bitsPerSample / 8))%Q))
  /\ field 32 2 bytes =
       le_bytes 2 (ToUint16 (truncate (numChannels * (bitsPerSample / 8))%Q))
  /\ field 34 2 bytes = le_bytes 2 (ToUint16 (truncate bitsPerSample)).
Proof.
  unfold wav_header.
  generalize (ToUint32 (36 + n)).
  generalize (ToUint16 (truncate numChannels)).
  generalize (ToUint32 (truncate sampleRate)).
  generalize (ToUint32 (truncate (sampleRate * numChannels * (bitsPerSample / 8))%Q)).
  generalize (ToUint16 (truncate (numChannels * (bitsPerSample / 8))%Q)).
  generalize (ToUint16 (truncate bitsPerSample)).
  generalize (ToUint32 n).
  intros. repeat split; reflexivity.
Qed.

(** On whole numbers the byte rate and the block align are the quotients by
    8 of the products. *)
Lemma truncate_byteRate (sampleRate numChannels bitsPerSample : Z) :
  0 <= sampleRate -> 0 <= numChannels -> 0 <= bitsPerSample ->
  truncate ((sampleRate # 1) * (numChannels # 1) * ((bitsPerSample # 1) / 8))%Q
  = sampleRate * numChannels * bitsPerSample / 8.
Proof.
  intros Hr Hc Hb. unfold truncate. cbn.
  rewrite Z.quot_div_nonneg by nia. f_equal. lia.
Qed.

Lemma truncate_blockAlign (numChannels bitsPerSample : Z) :
  0 <= numChannels -> 0 <= bitsPerSample ->
  truncate ((numChannels # 1) * ((bitsPerSample # 1) / 8))%Q
  = numChannels * bitsPerSample / 8.
Proof.
  intros Hc Hb. unfold truncate. cbn.
  rewrite Z.quot_div_nonneg by nia. f_equal. lia.
Qed.

(** C2, amended.  For a payload whose length plus 36 fits the 32-bit size
    field, and a whole sample rate, channel count and bits-per-sample that
    fit their fields (channels, bits and block align below 2^16; sample rate
    and byte rate below 2^32), [pcmToWav] returns a blob made of a 44-byte
    header and then the payload unchanged, and every field of the header is
    the canonical one: "RIFF" at 0, the little-endian value 36 + payload
    length at 4, "WAVE" at 8, "fmt " at 12 with sub-chunk size 16 and audio
    format 1, then the channel count at 22, the sample rate at 24, the byte
    rate sampleRate * numChannels * bitsPerSample / 8 at 28, the block align
    numChannels * bitsPerSample / 8 at 32 and the bits per sample at 34,
    "data" at 36 and the little-endian payload length at 40. *)
Theorem pcmToWav_canonical_header (pcmData : list Z)
    (sampleRate numChannels bitsPerSample : Z) :
  36 + Z.of_nat (length pcmData) < 4294967296 ->
  0 <= numChannels < 65536 ->
  0 <= sampleRate < 4294967296 ->
  0 <= bitsPerSample < 65536 ->
  sampleRate * numChannels * bitsPerSample < 8 * 4294967296 ->
  numChannels * bitsPerSample < 8 * 65536 ->
  exists wav,
    pcmToWav pcmData (sampleRate # 1) (numChannels # 1) (bitsPerSample # 1) = Ok wav
    /\ let bytes := blob_bytes wav in
       length bytes = (44 + length pcmData)%nat
       /\ Forall u8 (take 44 bytes)
       /\ field 0 4 bytes = of_string "RIFF"
       /\ read_le (field 4 4 bytes) = 36 + Z.of_nat (length pcmData)
       /\ field 8 4 bytes = of_string "WAVE"
       /\ field 12 4 bytes = of_string "fmt "
       /\ read_le (field 16 4 bytes) = 16
       /\ read_le (field 20 2 bytes) = 1
       /\ read_le (field 22 2 bytes) = numChannels
       /\ read_le (field 24 4 bytes) = sampleRate
       /\ read_le (field 28 4 bytes) = sampleRate * numChannels * bitsPerSample / 8
       /\ read_le (field 32 2 bytes) = numChannels * bitsPerSample / 8
       /\ read_le (field 34 2 bytes) = bitsPerSample
       /\ field 36 4 bytes = of_string "data"
       /\ read_le (field 40 4 bytes) = Z.of_nat (length pcmData)
       /\ drop 44 bytes = pcmData.
Proof.
  intros Hsize Hc Hr Hb Hrate Hblock.
  eexists. split; [apply pcmToWav_bytes|].
  cbn [blob_bytes].
  destruct (wav_header_fields (Z.of_nat (length pcmData))
              (sampleRate # 1) (numChannels # 1) (bitsPerSample # 1) pcmData)
    as (Hriff & Hchunk & Hwave & Hfmt & Hsub & Hformat & Hdata & Hsize2 & Hhead & Hpay).
  destruct (wav_header_format_fields (Z.of_nat (length pcmData))
              (sampleRate # 1) (numChannels # 1) (bitsPerSample # 1) pcmData)
    as (Hchannels & Hsample & Hbyte & Halign & Hbits).
  cbv zeta in *.
  rewrite Hriff, Hchunk, Hwave, Hfmt, Hsub, Hformat, Hdata, Hsize2, Hhead, Hpay.
  rewrite Hchannels, Hsample, Hbyte, Halign, Hbits.
  rewrite truncate_byteRate, truncate_blockAlign, !truncate_integer by lia.
  assert (0 <= sampleRate * numChannels * bitsPerSample / 8 < 4294967296) as Hq.
  { split; [apply Z.div_pos; nia | apply Z.div_lt_upper_bound; lia]. }
  assert (0 <= numChannels * bitsPerSample / 8 < 65536) as Hq'.
  { split; [apply Z.div_pos; nia | apply Z.div_lt_upper_bound; lia]. }
  unfold ToUint32, ToUint16. rewrite !Z.mod_small by lia.
  split_and!; try reflexivity;
    try (apply read_le_le_bytes; simpl; lia).
  apply wav_header_u8.
Qed.

Lemma pcmToWav_canonical_header_witness :
  exists wav,
    pcmToWav [1; 2; 3; 4] 24000 1 16 = Ok wav
    /\ let bytes := blob_bytes wav in
       length bytes = 48%nat
       /\ Forall u8 (take 44 bytes)
       /\ field 0 4 bytes = of_string "RIFF"
       /\ read_le (field 4 4 bytes) = 40
       /\ field 8 4 bytes = of_string "WAVE"
       /\ field 12 4 bytes = of_string "fmt "
       /\ read_le (field 16 4 bytes) = 16
       /\ read_le (field 20 2 bytes) = 1
       /\ read_le (field 22 2 bytes) = 1
       /\ read_le (field 24 4 bytes) = 24000
       /\ read_le (field 28 4 bytes) = 48000
       /\ read_le (field 32 2 bytes) = 2
       /\ read_le (field 34 2 bytes) = 16
       /\ field 36 4 bytes = of_string "data"
       /\ read_le (field 40 4 bytes) = 4
       /\ drop 44 bytes = [1; 2; 3; 4].
Proof.
  apply (pcmToWav_canonical_header [1; 2; 3; 4] 24000 1 16); simpl; lia.
Defined.

(** C2 as stated, for every channel count, does not hold: a channel count of
    65536 does not fit the 16-bit field at offset 22.  The header that
    [pcmToWav] writes for it announces 0 channels and a block align of 0,
    which is not a header of the data that follows. *)
Lemma pcmToWav_channels_wrap :
  exists wav,
    pcmToWav [1; 2; 3; 4] 24000 65536 16 = Ok wav
    /\ read_le (field 22 2 (blob_bytes wav)) = 0
    /\ read_le (field 22 2 (blob_bytes wav)) <> 65536
    /\ read_le (field 32 2 (blob_bytes wav)) = 0.
Proof. eexists. split; [reflexivity|]. repeat split. discriminate. Qed.

(** The header of the text-to-speech call, byte for byte. *)
Example pcmToWav_tts :
  pcmToWav [1; 2; 3; 4] 24000 1 16 =
  Ok {| blob_bytes :=
          [82; 73; 70; 70;  40; 0; 0; 0;  87; 65; 86; 69;
           102; 109; 116; 32;  16; 0; 0; 0;  1; 0;  1; 0;
           192; 93; 0; 0;  128; 187; 0; 0;  2; 0;  16; 0;
           100; 97; 116; 97;  4; 0; 0; 0;
           1; 2; 3; 4];
        blob_type := "audio/wav" |}.
Proof. reflexivity. Qed.

(** *** Decoding PCM into an audio buffer *)

Lemma int16_view_length (bytes : list Z) :
  Z.of_nat (length (int16_view bytes)) = Z.of_nat (length bytes) / 2.
Proof.
  cut (forall l : list Z,
          Z.of_nat (length (int16_view l)) = Z.of_nat (length l) / 2
          /\ forall a, Z.of_nat (length (int16_view (a :: l)))
                       = Z.of_nat (length (a :: l)) / 2).
  { intros Hall. apply Hall. }
  induction l as [|b l [IH0 IH1]]; split; try intros a; cbn [int16_view length].
  - reflexivity.
  - reflexivity.
  - apply IH1.
  - rewrite !Nat2Z.inj_succ, IH0. Z.div_mod_to_equations; lia.
Qed.

Lemma truncate_quotient (n c : Z) :
  0 <= n -> 0 < c -> truncate ((n # 1) / (c # 1)) = n / c.
Proof.
  intros Hn Hc. destruct c as [|c|c]; try lia.
  unfold truncate, Qdiv, Qinv, Qmult. simpl.
  rewrite Z.mul_1_r. apply Z.quot_div_nonneg; lia.
Qed.

Lemma length_parity (n : nat) :
  (n mod 2 =? 0)%nat = (Z.of_nat n mod 2 =? 0).
Proof.
  destruct (Nat.eqb_spec (n mod 2) 0) as [E|E];
    destruct (Z.eqb_spec (Z.of_nat n mod 2) 0) as [E'|E']; try reflexivity; exfalso.
  - apply E'. change 2 with (Z.of_nat 2). rewrite <- Nat2Z.inj_mod, E. reflexivity.
  - apply E. change 2 with (Z.of_nat 2) in E'. rewrite <- Nat2Z.inj_mod in E'. lia.
Qed.

(** What [decodeAudioData] does with any input, for a sample rate and a
    channel count the audio context supports. *)
Lemma decodeAudioData_cases (data : list Z) (sampleRate numChannels : Z) :
  8000 <= sampleRate <= 96000 -> 1 <= numChannels <= 32 ->
  Z.of_nat (length data) < 4294967296 ->
  let samples := Z.of_nat (length data) / 2 in
  if negb (Z.of_nat (length data) mod 2 =? 0) then
    decodeAudioData data sampleRate numChannels = Throw RangeError
  else if samples / numChannels =? 0 then
    decodeAudioData data sampleRate numChannels = Throw NotSupportedError
  else
    exists buffer,
      decodeAudioData data sampleRate numChannels = Ok buffer
      /\ buffer_length buffer = samples / numChannels
      /\ numberOfChannels buffer = numChannels
      /\ buffer_sampleRate buffer = sampleRate
      /\ length (channelData buffer) = Z.to_nat numChannels
      /\ Forall (fun ch => length ch = Z.to_nat (samples / numChannels))
                (channelData buffer).
Proof.
  intros Hrate Hch Hlen samples. unfold decodeAudioData, Int16Array_of_buffer.
  rewrite length_parity.
  destruct (Z.eqb_spec (Z.of_nat (length data) mod 2) 0) as [Heven|Hodd];
    [|reflexivity]. cbn [negb mbind result_bind].
  rewrite int16_view_length. fold samples.
  assert (Hs : 0 <= samples < 4294967296)
    by (unfold samples; Z.div_mod_to_equations; lia).
  unfold createBuffer. rewrite truncate_quotient by lia.
  assert (Hf : 0 <= samples / numChannels < 4294967296)
    by (Z.div_mod_to_equations; nia).
  unfold ToUint32. rewrite !Z.mod_small by lia.
  destruct (Z.eqb_spec (samples / numChannels) 0) as [Hzero|Hframes].
  - rewrite Hzero.
    replace ((1 <=? numChannels) && (numChannels <=? 32) && (1 <=? 0)
             && (8000 <=? sampleRate) && (sampleRate <=? 96000)) with false by lia.
    reflexivity.
  - replace ((1 <=? numChannels) && (numChannels <=? 32)
             && (1 <=? samples / numChannels)
             && (8000 <=? sampleRate) && (sampleRate <=? 96000)) with true by lia.
    cbn [numberOfChannels buffer_length buffer_sampleRate mret result_ret].
    eexists. split; [reflexivity|]. cbn [buffer_length numberOfChannels
      buffer_sampleRate channelData].
    repeat split.
    + now rewrite length_map, length_seq.
    + apply Forall_map, Forall_forall. intros ch _.
      unfold fill_channel. now rewrite length_map, length_seq.
Qed.

Lemma aligned_frames (n c : Z) :
  1 <= c -> 0 < n -> n mod (c * 2) = 0 ->
  n mod 2 = 0 /\ c <= n / 2 /\ n / 2 / c * c = n / 2.
Proof.
  intros Hc Hn Hal. apply Z.mod_divide in Hal as [k Hk]; [|lia].
  assert (Hk1 : 1 <= k) by nia.
  assert (Hhalf : n / 2 = k * c)
    by (symmetry; apply (Z.div_unique n 2 (k * c) 0); lia).
  rewrite Hhalf. repeat split.
  - rewrite Hk. rewrite Z.mul_assoc. apply Z.mod_mul. lia.
  - nia.
  - rewrite Z.div_mul by lia. reflexivity.
Qed.

(** C9 (as amended).  For a sample rate and a channel count the context
    supports: decoding fails with a [RangeError] when the byte length is odd,
    which for the single channel the application passes is exactly when the
    length is not a multiple of [channels * 2]; an even-length input with at
    least one whole frame succeeds with frame count
    [floor (sampleCount / channels)]; so a non-empty aligned input succeeds
    with frame count [sampleCount / channels]. *)
Theorem decodeAudioData_alignment (data : list Z) (sampleRate numChannels : Z) :
  8000 <= sampleRate <= 96000 -> 1 <= numChannels <= 32 ->
  Z.of_nat (length data) < 4294967296 ->
  let n := Z.of_nat (length data) in
  (n mod 2 <> 0 -> decodeAudioData data sampleRate numChannels = Throw RangeError)
  /\ (numChannels = 1 -> n mod (numChannels * 2) <> 0 ->
      decodeAudioData data sampleRate numChannels = Throw RangeError)
  /\ (n mod 2 = 0 -> numChannels <= n / 2 ->
      exists buffer, decodeAudioData data sampleRate numChannels = Ok buffer
                     /\ buffer_length buffer = n / 2 / numChannels)
  /\ (n mod (numChannels * 2) = 0 -> 0 < n ->
      exists buffer, decodeAudioData data sampleRate numChannels = Ok buffer
                     /\ buffer_length buffer * numChannels = n / 2).
Proof.
  intros Hrate Hch Hlen n.
  pose proof (decodeAudioData_cases data sampleRate numChannels Hrate Hch Hlen)
    as Hcases. cbv zeta in Hcases. fold n in Hcases.
  assert (Hodd : n mod 2 <> 0 ->
                 decodeAudioData data sampleRate numChannels = Throw RangeError).
  { intros Hn. destruct (Z.eqb_spec (n mod 2) 0); [contradiction|exact Hcases]. }
  assert (Hframes : n mod 2 = 0 -> numChannels <= n / 2 ->
            exists buffer, decodeAudioData data sampleRate numChannels = Ok buffer
                           /\ buffer_length buffer = n / 2 / numChannels).
  { intros Hn Hfr. destruct (Z.eqb_spec (n mod 2) 0); [|contradiction].
    cbn [negb] in Hcases.
    destruct (Z.eqb_spec (n / 2 / numChannels) 0) as [Hz|_].
    - exfalso. apply Z.div_small_iff in Hz; lia.
    - destruct Hcases as (buffer & Hok & Hl & _). eauto. }
  repeat split.
  - exact Hodd.
  - intros -> Hn. apply Hodd. exact Hn.
  - exact Hframes.
  - intros Hal Hpos.
    destruct (aligned_frames n numChannels) as (Heven & Hone & Hexact);
      [lia | exact Hpos | exact Hal |].
    destruct (Hframes Heven Hone) as (buffer & Hok & Hl).
    exists buffer. split; [exact Hok|]. now rewrite Hl.
Qed.

Lemma decodeAudioData_alignment_witness :
  let data := [0; 0; 0; 64; 0; 192; 255; 127] in
  let n := Z.of_nat (length data) in
  (n mod 2 <> 0 -> decodeAudioData data 24000 1 = Throw RangeError)
  /\ (1 = 1 -> n mod (1 * 2) <> 0 -> decodeAudioData data 24000 1 = Throw RangeError)
  /\ (n mod 2 = 0 -> 1 <= n / 2 ->
      exists buffer, decodeAudioData data 24000 1 = Ok buffer
                     /\ buffer_length buffer = n / 2 / 1)
  /\ (n mod (1 * 2) = 0 -> 0 < n ->
      exists buffer, decodeAudioData data 24000 1 = Ok buffer
                     /\ buffer_length buffer * 1 = n / 2).
Proof.
  apply (decodeAudioData_alignment [0; 0; 0; 64; 0; 192; 255; 127] 24000 1);
    simpl; lia.
Defined.

(** C9 as stated does not hold: six bytes are not a multiple of 2 * 2, and
    decoding them as two channels succeeds, with one frame; the empty input
    is aligned, and decoding it fails. *)
Lemma decodeAudioData_misaligned_accepted :
  Z.of_nat (length [1; 0; 2; 0; 3; 0]) mod (2 * 2) <> 0
  /\ decodeAudioData [1; 0; 2; 0; 3; 0] 24000 2 =
       Ok {| numberOfChannels := 2; buffer_length := 1; buffer_sampleRate := 24000;
             channelData := [[1 # 32768]; [2 # 32768]]%Q |}
  /\ Z.of_nat (length (@nil Z)) mod (1 * 2) = 0
  /\ decodeAudioData [] 24000 1 = Throw NotSupportedError.
Proof. repeat split. discriminate. Qed.

(** The samples [0, 16384, -16384, 32767], mono. *)
Example decodeAudioData_mono :
  decodeAudioData [0; 0; 0; 64; 0; 192; 255; 127] 24000 1 =
  Ok {| numberOfChannels := 1; buffer_length := 4; buffer_sampleRate := 24000;
        channelData := [[0 # 32768; 16384 # 32768; -16384 # 32768; 32767 # 32768]]%Q |}.
Proof. reflexivity. Qed.

Example decodeAudioData_odd :
  decodeAudioData [0; 0; 0] 24000 1 = Throw RangeError.
Proof. reflexivity. Qed.

(** *** The capture path *)

Lemma ToInt16_range (z : Z) : -32768 <= ToInt16 z < 32768.
Proof.
  unfold ToInt16. cbv zeta.
  destruct (Z.leb_spec 32768 (z mod 65536)); Z.div_mod_to_equations; lia.
Qed.

Lemma ToInt16_congruent (z : Z) : (ToInt16 z - z) mod 65536 = 0.
Proof.
  unfold ToInt16. cbv zeta.
  destruct (Z.leb_spec 32768 (z mod 65536)); Z.div_mod_to_equations; lia.
Qed.

Lemma ToInt16_small (z : Z) : -32768 <= z < 32768 -> ToInt16 z = z.
Proof.
  unfold ToInt16. cbv zeta. intros Hz.
  destruct (Z.leb_spec 32768 (z mod 65536)); Z.div_mod_to_equations; lia.
Qed.

(** C10.  The capture path stores, for each sample, the integral part of
    the sample times 32768 reduced modulo 2^16 to a signed 16-bit value:
    the stored value lies in [-32768, 32767] and is congruent to the product;
    nothing is clamped.  A product that fits is stored as it is; the
    full-scale sample 1.0 is stored as -32768, not as 32767.  The frame that
    is sent holds the bytes of these values. *)
Theorem float_to_int16_wraps :
  (forall sample : Q,
      let product := truncate (sample * 32768)%Q in
      -32768 <= float_to_int16 sample < 32768
      /\ (float_to_int16 sample - product) mod 65536 = 0
      /\ (-32768 <= product < 32768 -> float_to_int16 sample = product))
  /\ float_to_int16 1 = -32768
  /\ float_to_int16 (32767 # 32768) = 32767
  /\ (forall inputData : list Q,
        onaudioprocess inputData =
        (data ← encode (Uint8Array_of_int16 (map float_to_int16 inputData));
         mret {| pcm_data := data; pcm_mimeType := "audio/pcm;rate=16000" |})).
Proof.
  repeat split; try reflexivity.
  - apply ToInt16_range.
  - apply ToInt16_range.
  - apply ToInt16_congruent.
  - apply ToInt16_small.
Qed.

Example capture_full_scale :
  onaudioprocess [1; -1; 0.5; 1.5]%Q =
  Ok {| pcm_data := of_string "AIAAgABAAMA="; pcm_mimeType := "audio/pcm;rate=16000" |}.
Proof. reflexivity. Qed.

End CodecFacts.

(** ** The poller *)

Section PollerFacts.
Import Poller.

Variable API_KEY : string.

Lemma simulated_step (k : nat) :
  Z.min (simulated k + 5) 95 = simulated (S k).
Proof. unfold simulated. lia. Qed.

Lemma simulated_bounds (k : nat) : 10 <= simulated k <= 95.
Proof. unfold simulated. lia. Qed.

Lemma simulated_mono (i j : nat) : (i <= j)%nat -> simulated i <= simulated j.
Proof. unfold simulated. lia. Qed.

Lemma completed_progress (op : Operation) : progress (completed API_KEY op) = 100.
Proof. unfold completed. destruct (uri op) as [[|c rest]|]; reflexivity. Qed.

(** The loop, entered after [k] successful polls. *)
Lemma poll_loop_values (responses : list fetch) :
  forall (op : Operation) (k : nat),
    let r := poll_loop API_KEY op (simulated k) responses in
    exists n : nat,
      (n <= length responses)%nat
      /\ progress_values r = (simulated <$> seq (S k) n) ++ closing (state r)
      /\ (state r = Polling -> n = length responses)
      /\ (done op = false -> forallb pending responses = true -> state r = Polling).
Proof.
  unfold progress_values.
  induction responses as [|[op'|msg] rest IH]; intros op k; cbn [poll_loop].
  - destruct (done op) eqn:Hdone; cbn.
    + exists 0%nat. rewrite completed_progress. repeat split; auto; discriminate.
    + exists 0%nat. repeat split; auto.
  - destruct (done op) eqn:Hdone; cbn [emitted state unread].
    + exists 0%nat. cbn. rewrite completed_progress.
      repeat split; auto with arith; discriminate.
    + rewrite simulated_step.
      destruct (IH op' (S k)) as (n & Hn & Hvals & Hall & Hpend).
      exists (S n). cbn [fmap list_fmap seq app progress processing].
      cbn [fmap] in Hvals. rewrite Hvals. repeat split.
      * cbn. lia.
      * intros Hst. cbn. f_equal. auto.
      * intros _ Hp. cbn in Hp. apply andb_prop in Hp as [Hop' Hrest].
        apply Hpend; [|exact Hrest]. now destruct (done op').
  - destruct (done op) eqn:Hdone; cbn [emitted state unread].
    + exists 0%nat. cbn. rewrite completed_progress.
      repeat split; auto with arith; discriminate.
    + exists 0%nat. cbn. repeat split; auto with arith; discriminate.
Qed.

Lemma lookup_simulated (m : nat) (t : list Z) (i : nat) (p : Z) :
  ((simulated <$> seq 0 m) ++ t) !! i = Some p ->
  (i < m)%nat /\ p = simulated i
  \/ (m <= i)%nat /\ t !! (i - m)%nat = Some p.
Proof.
  intros Hi. apply lookup_app_Some in Hi as [Hi|[Hlen Hi]].
  - left. rewrite list_lookup_fmap in Hi.
    destruct (seq 0 m !! i) as [k|] eqn:Hk; [|discriminate].
    apply lookup_seq in Hk as [-> Hlt]. injection Hi as <-. auto.
  - rewrite length_fmap, length_seq in Hlen, Hi. auto.
Qed.

Lemma lookup_closing (st : status) (i : nat) (p : Z) :
  closing st !! i = Some p -> i = 0%nat /\ p = 100 /\ st = Finished.
Proof.
  destruct st; cbn; [|discriminate].
  destruct i; cbn; [|discriminate]. intros [= <-]. auto.
Qed.

(** C3.  Whatever the polls receive, the progress values emitted are
    10, 15, 20, ... one step of 5 for every poll that succeeded, capped at
    95, followed by 100 exactly when the run has reached its terminal
    snapshot.  So the first value is 10, the values never decrease, every
    value before the terminal snapshot is at most 95, and the value 100
    appears on the terminal snapshot only.  Against responses that are all
    non-terminal the run is still polling and has emitted one value per
    response after the first. *)
Theorem poller_progress (operation : Operation) (responses : list fetch) :
  let r := pollVeoOperation API_KEY operation responses in
  exists n : nat,
    (n <= length responses)%nat
    /\ progress_values r = (simulated <$> seq 0 (S n)) ++ closing (state r)
    /\ (state r = Polling -> n = length responses)
    /\ (done operation = false -> forallb pending responses = true ->
        state r = Polling)
    /\ head (progress_values r) = Some 10
    /\ (forall (i j : nat) (p q : Z),
          (i <= j)%nat -> progress_values r !! i = Some p ->
          progress_values r !! j = Some q -> p <= q)
    /\ (forall (i : nat) (p : Z),
          progress_values r !! i = Some p ->
          (i <= n)%nat /\ p = Z.min (10 + 5 * Z.of_nat i) 95 /\ p <= 95
          \/ i = S n /\ p = 100 /\ state r = Finished).
Proof.
  intros r.
  destruct (poll_loop_values responses operation 0) as (n & Hn & Hvals & Hall & Hpend).
  change (simulated 0) with 10 in *. cbv zeta in *.
  assert (Hr : progress_values r = (simulated <$> seq 0 (S n)) ++ closing (state r)).
  { unfold r, pollVeoOperation, progress_values in *. cbn [emitted state fmap list_fmap seq].
    cbn [fmap] in Hvals. rewrite Hvals. reflexivity. }
  assert (Hcases : forall (i : nat) (p : Z),
            progress_values r !! i = Some p ->
            (i <= n)%nat /\ p = simulated i
            \/ i = S n /\ p = 100 /\ state r = Finished).
  { intros i p Hi. rewrite Hr in Hi.
    apply lookup_simulated in Hi as [[Hlt ->]|[Hge Hi]].
    - left. split; [lia|reflexivity].
    - right. apply lookup_closing in Hi as (Hz & -> & Hfin).
      repeat split; [lia|exact Hfin]. }
  exists n. split_and!; [exact Hn | exact Hr | exact Hall | exact Hpend | reflexivity | | ].
  - intros i j p q Hij Hi Hj.
    destruct (Hcases i p Hi) as [[Hin ->]|(-> & -> & _)];
      destruct (Hcases j q Hj) as [[Hjn ->]|(-> & -> & _)].
    + now apply simulated_mono.
    + pose proof (simulated_bounds i). lia.
    + lia.
    + lia.
  - intros i p Hi. destruct (Hcases i p Hi) as [[Hin ->]|Hterm]; [left|right; exact Hterm].
    pose proof (simulated_bounds i). unfold simulated in *. repeat split; lia.
Qed.

(** The end-to-end run of the specification: one poll finds the operation
    running, the next finds it done. *)
Example poller_two_polls :
  progress_values
    (pollVeoOperation API_KEY {| done := false; uri := None |}
       [Fetched {| done := false; uri := None |};
        Fetched {| done := true; uri := Some "https://v/1"%string |}])
  = [10; 15; 20; 100].
Proof. reflexivity. Qed.

Example poller_cap :
  progress_values
    (pollVeoOperation API_KEY {| done := false; uri := None |}
       (replicate 19 (Fetched {| done := false; uri := None |})))
  = [10; 15; 20; 25; 30; 35; 40; 45; 50; 55; 60; 65; 70; 75; 80; 85; 90; 95;
     95; 95].
Proof. reflexivity. Qed.

(** A run against non-terminal responses: still polling, everything read. *)
Lemma poll_loop_pending (pre : list fetch) :
  forall (op : Operation) (p : Z),
    done op = false -> forallb pending pre = true ->
    let r := poll_loop API_KEY op p pre in
    state r = Polling /\ unread r = []
    /\ Forall (fun s => progress s <= Z.max p 95 /\ error s = None) (emitted r).
Proof.
  induction pre as [|[op'|msg] rest IH]; intros op p Hop Hpre; cbn [poll_loop];
    rewrite Hop; cbn [emitted state unread].
  - auto.
  - cbn in Hpre. apply andb_prop in Hpre as [Hop' Hrest].
    apply negb_true_iff in Hop'.
    destruct (IH op' (Z.min (p + 5) 95) Hop' Hrest) as (Hst & Hun & Hem).
    repeat split; auto. constructor.
    + cbn. split; [lia|reflexivity].
    + eapply Forall_impl; [exact Hem|]. cbn. intros s [Hs He]. split; [lia|exact He].
  - discriminate.
Qed.

(** A run is not affected by what follows the responses it has read, and a
    failed fetch ends it. *)
Lemma poll_loop_failed (pre : list fetch) (msg : string) (rest : list fetch) :
  forall (op : Operation) (p : Z),
    done op = false -> forallb pending pre = true ->
    let r := poll_loop API_KEY op p (pre ++ Failed msg :: rest) in
    emitted r = emitted (poll_loop API_KEY op p pre) ++ [polling_failed msg]
    /\ state r = Finished /\ unread r = rest.
Proof.
  induction pre as [|[op'|msg'] pre' IH]; intros op p Hop Hpre;
    cbn [poll_loop app]; rewrite Hop; cbn [emitted state unread].
  - auto.
  - cbn in Hpre. apply andb_prop in Hpre as [Hop' Hrest].
    apply negb_true_iff in Hop'.
    destruct (IH op' (Z.min (p + 5) 95) Hop' Hrest) as (Hem & Hst & Hun).
    cbv zeta in Hem. rewrite Hem. auto.
  - discriminate.
Qed.

(** C4.  When a status fetch fails (after polls that all found the
    operation running), the poller emits, right after the snapshots of those
    polls, one snapshot with progress 100 and the failure's message as its
    error, and returns: nothing is emitted after it and no response is read
    after the failed one, whatever would have followed.  It is the only
    snapshot of the run with progress 100 or with an error. *)
Theorem poller_fetch_failure (operation : Operation) (pre : list fetch)
    (msg : string) (rest : list fetch) :
  done operation = false -> forallb pending pre = true ->
  let r := pollVeoOperation API_KEY operation (pre ++ Failed msg :: rest) in
  let before := emitted (pollVeoOperation API_KEY operation pre) in
  emitted r = before ++ [polling_failed msg]
  /\ progress (polling_failed msg) = 100
  /\ error (polling_failed msg) = Some msg
  /\ Forall (fun s => progress s <= 95 /\ error s = None) before
  /\ state r = Finished
  /\ unread r = rest.
Proof.
  intros Hop Hpre r before.
  destruct (poll_loop_failed pre msg rest operation 10 Hop Hpre) as (Hem & Hst & Hun).
  destruct (poll_loop_pending pre operation 10 Hop Hpre) as (_ & _ & Hbefore).
  unfold r, before, pollVeoOperation. cbn [emitted state unread].
  cbv zeta in Hem. rewrite Hem. repeat split; auto.
  constructor; [cbn; split; [lia|reflexivity]|].
  eapply Forall_impl; [exact Hbefore|]. cbn. intros s [Hs He]. split; [lia|exact He].
Qed.

End PollerFacts.

Lemma poller_fetch_failure_witness :
  let operation := {| Poller.done := false; Poller.uri := None |} in
  let pre := [Poller.Fetched operation; Poller.Fetched operation] in
  let rest := [Poller.Fetched {| Poller.done := true; Poller.uri := None |}] in
  let r := Poller.pollVeoOperation "k" operation (pre ++ Poller.Failed "503" :: rest) in
  let before := Poller.emitted (Poller.pollVeoOperation "k" operation pre) in
  Poller.emitted r = before ++ [Poller.polling_failed "503"]
  /\ Poller.progress (Poller.polling_failed "503") = 100
  /\ Poller.error (Poller.polling_failed "503") = Some "503"%string
  /\ Forall (fun s => Poller.progress s <= 95 /\ Poller.error s = None) before
  /\ Poller.state r = Poller.Finished
  /\ Poller.unread r = rest.
Proof.
  apply (poller_fetch_failure "k"
           {| Poller.done := false; Poller.uri := None |}
           [Poller.Fetched {| Poller.done := false; Poller.uri := None |};
            Poller.Fetched {| Poller.done := false; Poller.uri := None |}]
           "503"
           [Poller.Fetched {| Poller.done := true; Poller.uri := None |}]);
    reflexivity.
Defined.

(** ** The live session: playback *)

Section PlaybackFacts.
Import Codec Live.

Context {time : Type} {clock : Clock time}.

Lemma onmessage_audio_frame (now : time) (message : LiveServerMessage)
    (audio : jsstring) (buffer : AudioBuffer) (st : Playback time) :
  audio_frame message audio buffer ->
  onmessage now message st =
  ({| nextStartTime := t_add (t_max (nextStartTime st) now) (duration buffer);
      sources := {[length (nodes st)]} ∪ sources st;
      nodes := nodes st ++ [{| node_buffer := buffer;
                               node_start := t_max (nextStartTime st) now;
                               node_stopped := false |}] |},
   Ok tt).
Proof.
  intros (Haudio & Hne & Hint & Hdec). unfold onmessage.
  rewrite Haudio, Hint. destruct audio as [|c a]; [contradiction|].
  unfold schedule. rewrite Hdec. reflexivity.
Qed.

(** C5.  A model audio frame is started at [max(nextStartTime, now)] and
    [nextStartTime] then moves to that start plus the buffer's duration; so
    of two frames handled one after the other the second starts at the
    first's start plus the first's duration, or at the output clock's time
    when it is handled if that is later. *)
Theorem playback_back_to_back (now1 now2 : time) (m1 m2 : LiveServerMessage)
    (a1 a2 : jsstring) (b1 b2 : AudioBuffer) (st : Playback time) :
  audio_frame m1 a1 b1 -> audio_frame m2 a2 b2 ->
  let start1 := t_max (nextStartTime st) now1 in
  let start2 := t_max (t_add start1 (duration b1)) now2 in
  exists st1 st2 : Playback time,
    onmessage now1 m1 st = (st1, Ok tt)
    /\ onmessage now2 m2 st1 = (st2, Ok tt)
    /\ nodes st1 = nodes st ++ [{| node_buffer := b1; node_start := start1;
                                   node_stopped := false |}]
    /\ nextStartTime st1 = t_add start1 (duration b1)
    /\ nodes st2 = nodes st1 ++ [{| node_buffer := b2; node_start := start2;
                                    node_stopped := false |}]
    /\ nextStartTime st2 = t_add start2 (duration b2)
    /\ sources st2 = {[S (length (nodes st))]} ∪ ({[length (nodes st)]} ∪ sources st).
Proof.
  intros Hm1 Hm2 start1 start2.
  eexists. eexists.
  split; [apply (onmessage_audio_frame now1 m1 a1 b1 st Hm1)|].
  split; [apply (onmessage_audio_frame now2 m2 a2 b2 _ Hm2)|].
  cbn [nodes nextStartTime sources]. split_and!; try reflexivity.
  rewrite length_app. cbn [length]. rewrite Nat.add_1_r. reflexivity.
Qed.

(** The loop over [sources.values()]: it empties the set and stops the
    nodes that were in it, and only those. *)
Lemma stop_all (st : Playback time) :
  let st' := set_fold stop_source st (sources st) in
  nextStartTime st' = nextStartTime st
  /\ sources st' = ∅
  /\ forall id : nat,
       nodes st' !! id =
       (if decide (id ∈ sources st) then stop <$> nodes st !! id else nodes st !! id).
Proof.
  cbv zeta.
  cut (forall X : gset nat,
          let r := set_fold stop_source st X in
          nextStartTime r = nextStartTime st
          /\ sources r = sources st ∖ X
          /\ forall id : nat,
               nodes r !! id =
               (if decide (id ∈ X) then stop <$> nodes st !! id else nodes st !! id)).
  { intros Hall. destruct (Hall (sources st)) as (Ht & Hs & Hn).
    split_and!; [exact Ht | set_solver | exact Hn]. }
  apply (set_fold_ind_L
           (fun r X =>
              nextStartTime r = nextStartTime st
              /\ sources r = sources st ∖ X
              /\ forall id : nat,
                   nodes r !! id =
                   (if decide (id ∈ X) then stop <$> nodes st !! id
                    else nodes st !! id))).
  - split_and!; [reflexivity | set_solver |].
    intros id. destruct (decide (id ∈ (∅ : gset nat))); [set_solver|reflexivity].
  - intros x X r Hx (Ht & Hs & Hn). unfold stop_source. cbn [nextStartTime sources nodes].
    split_and!; [exact Ht | set_solver |].
    intros id. destruct (decide (id = x)) as [->|Hne].
    + rewrite list_lookup_alter_eq, Hn.
      destruct (decide (x ∈ X)); [contradiction|].
      destruct (decide (x ∈ {[x]} ∪ X)); [reflexivity|set_solver].
    + rewrite list_lookup_alter_ne by auto. rewrite Hn.
      destruct (decide (id ∈ X)); destruct (decide (id ∈ {[x]} ∪ X));
        try reflexivity; set_solver.
Qed.

Lemma interrupt_spec (st : Playback time) :
  nextStartTime (interrupt st) = t_zero
  /\ sources (interrupt st) = ∅
  /\ forall id : nat,
       nodes (interrupt st) !! id =
       (if decide (id ∈ sources st) then stop <$> nodes st !! id else nodes st !! id).
Proof.
  destruct (stop_all st) as (_ & Hs & Hn). unfold interrupt.
  cbn [nextStartTime sources nodes]. auto.
Qed.

(** What a handler that got through its audio branch leaves behind: the
    sources and nodes it found are still there. *)
Lemma schedule_keeps (now : time) (audio : jsstring) (st st1 : Playback time)
    (r : result unit) :
  schedule now audio st = (st1, r) ->
  sources st ⊆ sources st1
  /\ forall (id : nat) (n : SourceNode time),
       nodes st !! id = Some n -> nodes st1 !! id = Some n.
Proof.
  unfold schedule.
  destruct (decode audio ≫= _) as [buffer|e]; intros [= <- <-];
    cbn [sources nodes]; split; try set_solver; auto.
  intros id n Hn. now apply lookup_app_l_Some.
Qed.

(** The node a handler creates is in [sources] when its audio branch is
    over. *)
Lemma schedule_new (now : time) (audio : jsstring) (st st1 : Playback time) :
  schedule now audio st = (st1, Ok tt) ->
  forall (id : nat) (n : SourceNode time),
    nodes st1 !! id = Some n -> (length (nodes st) <= id)%nat -> id ∈ sources st1.
Proof.
  unfold schedule.
  destruct (decode audio ≫= _) as [buffer|e]; intros Heq; [|discriminate].
  injection Heq as <-. cbn [sources nodes].
  intros id n Hn Hid. apply lookup_lt_Some in Hn.
  rewrite length_app in Hn. cbn [length] in Hn.
  assert (id = length (nodes st)) as -> by lia. set_solver.
Qed.

(** In every state the session reaches, the members of [sources] are nodes
    that exist and have not been stopped. *)
Lemma sources_playing (st : Playback time) :
  reachable st ->
  forall id : nat,
    id ∈ sources st ->
    exists n : SourceNode time, nodes st !! id = Some n /\ node_stopped n = false.
Proof.
  induction 1 as [|now message st _ IH|source st _ IH]; intros id Hid.
  - cbn in Hid. set_solver.
  - unfold onmessage in *.
    destruct (base64Audio message) as [audio|e]; [|cbn in *; auto].
    assert (Hsched : forall a st1 r,
               schedule now a st = (st1, r) ->
               forall id, id ∈ sources st1 ->
               exists n, nodes st1 !! id = Some n /\ node_stopped n = false).
    { intros a st1 r. unfold schedule.
      destruct (decode a ≫= _) as [buffer|e]; intros [= <- <-] id' Hid';
        cbn [sources nodes] in *; [|auto].
      apply elem_of_union in Hid' as [Hnew|Hold].
      - apply elem_of_singleton in Hnew as ->.
        eexists. split; [apply list_lookup_middle; reflexivity|reflexivity].
      - destruct (IH id' Hold) as (n & Hn & Hplay).
        exists n. split; [now apply lookup_app_l_Some|exact Hplay]. }
    destruct audio as [[|c a]|].
    + destruct (is_interrupted message); cbn [fst] in Hid; [|auto].
      rewrite (proj1 (proj2 (interrupt_spec st))) in Hid. set_solver.
    + destruct (schedule now (c :: a) st) as [st1 r] eqn:Hs.
      destruct r as [[]|e]; [|cbn [fst] in *; eauto].
      destruct (is_interrupted message); cbn [fst] in Hid; [|eauto].
      rewrite (proj1 (proj2 (interrupt_spec st1))) in Hid. set_solver.
    + destruct (is_interrupted message); cbn [fst] in Hid; [|auto].
      rewrite (proj1 (proj2 (interrupt_spec st))) in Hid. set_solver.
  - cbn [ended sources nodes] in *. apply IH. set_solver.
Qed.

(** A message whose model turn has no [parts] makes the handler throw at
    the read of [parts[0]], before anything else: the playback state is
    left as it was, whether or not the message signals an interruption. *)
Lemma onmessage_without_parts (now : time) (message : LiveServerMessage)
    (sc : ServerContent) (turn : Content) (st : Playback time) :
  serverContent message = Some sc -> modelTurn sc = Some turn ->
  parts turn = None ->
  onmessage now message st = (st, Throw TypeError).
Proof.
  intros Hsc Hturn Hparts. unfold onmessage, base64Audio.
  now rewrite Hsc, Hturn, Hparts.
Qed.

(** The interruption branch, when the handler reaches it.  If the handler
    returns normally from a message that signals an interruption, the set
    of scheduled sources is empty, every source that was in it has been
    stopped, and so has the source that the message's own audio part
    started; [nextStartTime] is 0, and the next audio frame therefore starts
    at [max(0, now)], that is at the output clock's current time, and not
    after the buffers that were discarded. *)
Theorem interruption_reset (now now' : time) (message next : LiveServerMessage)
    (audio : jsstring) (buffer : AudioBuffer) (st : Playback time) :
  is_interrupted message = true ->
  snd (onmessage now message st) = Ok tt ->
  audio_frame next audio buffer ->
  t_max t_zero now' = now' ->
  let st' := fst (onmessage now message st) in
  sources st' = ∅
  /\ nextStartTime st' = t_zero
  /\ (forall (id : nat) (n : SourceNode time),
        id ∈ sources st -> nodes st !! id = Some n ->
        nodes st' !! id = Some (stop n))
  /\ (forall (id : nat) (n : SourceNode time),
        (length (nodes st) <= id)%nat -> nodes st' !! id = Some n ->
        node_stopped n = true)
  /\ exists st'' : Playback time,
       onmessage now' next st' = (st'', Ok tt)
       /\ nodes st'' = nodes st' ++ [{| node_buffer := buffer; node_start := now';
                                        node_stopped := false |}]
       /\ sources st'' = {[length (nodes st')]}.
Proof.
  intros Hint Hdone Hnext Hnow st'.
  assert (Hst' : exists st1,
             st' = interrupt st1 /\ sources st ⊆ sources st1
             /\ (forall (id : nat) (n : SourceNode time),
                   nodes st !! id = Some n -> nodes st1 !! id = Some n)
             /\ forall (id : nat) (n : SourceNode time),
                  nodes st1 !! id = Some n -> (length (nodes st) <= id)%nat ->
                  id ∈ sources st1).
  { assert (Hsame : forall (id : nat) (n : SourceNode time),
               nodes st !! id = Some n -> (length (nodes st) <= id)%nat ->
               id ∈ sources st).
    { intros id n Hn Hid. apply lookup_lt_Some in Hn. lia. }
    unfold st'. unfold onmessage in *.
    destruct (base64Audio message) as [[[|c a]|]|e]; try discriminate;
      rewrite ?Hint in *; cbn [fst snd] in *.
    - exists st. split_and!; [reflexivity | set_solver | auto | exact Hsame].
    - destruct (schedule now (c :: a) st) as [st1 r] eqn:Hsched.
      destruct r as [[]|e]; cbn [fst snd] in *; [|discriminate].
      exists st1. split; [reflexivity|].
      destruct (schedule_keeps _ _ _ _ _ Hsched) as [Hsub Hkeep].
      split_and!; [exact Hsub | exact Hkeep | exact (schedule_new _ _ _ _ Hsched)].
    - exists st. split_and!; [reflexivity | set_solver | auto | exact Hsame]. }
  destruct Hst' as (st1 & -> & Hsub & Hnodes & Hnew).
  destruct (interrupt_spec st1) as (Ht & Hs & Hn).
  split_and!; [exact Hs | exact Ht | | |].
  - intros id n Hid Hlook. rewrite Hn.
    destruct (decide (id ∈ sources st1)); [|set_solver].
    now rewrite (Hnodes id n Hlook).
  - intros id n Hid Hlook. rewrite Hn in Hlook.
    destruct (decide (id ∈ sources st1)) as [_|Hout].
    + destruct (nodes st1 !! id) as [m|]; [|discriminate].
      injection Hlook as <-. reflexivity.
    + exfalso. apply Hout. eapply Hnew; eauto.
  - eexists. split; [apply (onmessage_audio_frame now' next audio buffer _ Hnext)|].
    cbn [nodes sources]. rewrite Ht, Hs, Hnow. split; [reflexivity|set_solver].
Qed.

End PlaybackFacts.

Section PlaybackRuns.
Import Codec Live.

Lemma playback_back_to_back_witness :
  let m := frame_message two_samples in
  let b := two_samples_buffer in
  let start1 := t_max (nextStartTime idle) (5 # 1)%Q in
  let start2 := t_max (t_add start1 (duration b)) (5 # 1)%Q in
  exists st1 st2 : Playback Q,
    onmessage (5 # 1)%Q m idle = (st1, Ok tt)
    /\ onmessage (5 # 1)%Q m st1 = (st2, Ok tt)
    /\ nodes st1 = nodes idle ++ [{| node_buffer := b; node_start := start1;
                                     node_stopped := false |}]
    /\ nextStartTime st1 = t_add start1 (duration b)
    /\ nodes st2 = nodes st1 ++ [{| node_buffer := b; node_start := start2;
                                    node_stopped := false |}]
    /\ nextStartTime st2 = t_add start2 (duration b)
    /\ sources st2 = {[S (length (nodes idle))]} ∪ ({[length (nodes idle)]} ∪ sources idle).
Proof.
  apply (playback_back_to_back (5 # 1)%Q (5 # 1)%Q
           (frame_message two_samples) (frame_message two_samples)
           two_samples two_samples two_samples_buffer two_samples_buffer idle).
  - unfold audio_frame. split_and!; [reflexivity | discriminate | reflexivity | reflexivity].
  - unfold audio_frame. split_and!; [reflexivity | discriminate | reflexivity | reflexivity].
Defined.

(** Two frames that arrive together at time 5: the second starts when the
    first ends, 2 / 24000 s later. *)
Example playback_gapless :
  map node_start
    (nodes (fst (onmessage (5 # 1)%Q (frame_message two_samples)
                   (fst (onmessage (5 # 1)%Q (frame_message two_samples) idle)))))
  = [5 # 1; 60001 # 12000]%Q.
Proof. reflexivity. Qed.

Lemma interruption_reset_witness :
  let playing := fst (onmessage (5 # 1)%Q (frame_message two_samples) idle) in
  let st' := fst (onmessage (6 # 1)%Q interruption_message playing) in
  sources st' = ∅
  /\ nextStartTime st' = t_zero
  /\ (forall (id : nat) (n : SourceNode Q),
        id ∈ sources playing -> nodes playing !! id = Some n ->
        nodes st' !! id = Some (stop n))
  /\ (forall (id : nat) (n : SourceNode Q),
        (length (nodes playing) <= id)%nat -> nodes st' !! id = Some n ->
        node_stopped n = true)
  /\ exists st'' : Playback Q,
       onmessage (7 # 1)%Q (frame_message two_samples) st' = (st'', Ok tt)
       /\ nodes st'' = nodes st' ++ [{| node_buffer := two_samples_buffer;
                                        node_start := (7 # 1)%Q;
                                        node_stopped := false |}]
       /\ sources st'' = {[length (nodes st')]}.
Proof.
  apply (interruption_reset (6 # 1)%Q (7 # 1)%Q interruption_message
           (frame_message two_samples) two_samples two_samples_buffer
           (fst (onmessage (5 # 1)%Q (frame_message two_samples) idle))).
  - reflexivity.
  - vm_compute. reflexivity.
  - unfold audio_frame. split_and!; [reflexivity | discriminate | reflexivity | reflexivity].
  - reflexivity.
Defined.

(** C6, on the code: an interruption signal that the handler does not
    handle.  A frame is scheduled at time 5 and is playing.  At time 6 a
    message arrives that signals an interruption and whose model turn has
    no [parts]: the handler throws a TypeError at [parts[0]] and never
    reaches the interruption branch.  The source is still in [sources] and
    has not been stopped, and [nextStartTime] is still the end of that
    frame, not 0.  The same happens, with a RangeError out of
    [decodeAudioData], when the message carries audio that is not 16-bit
    PCM; there [nextStartTime] has moved to the current time. *)
Theorem interruption_not_handled :
  let playing := fst (onmessage (5 # 1)%Q (frame_message two_samples) idle) in
  let st' := fst (onmessage (6 # 1)%Q interruption_without_parts playing) in
  let st'' := fst (onmessage (6 # 1)%Q (interruption_with_audio (of_string "AA==")) playing) in
  is_interrupted interruption_without_parts = true
  /\ snd (onmessage (6 # 1)%Q interruption_without_parts playing) = Throw TypeError
  /\ 0%nat ∈ sources st'
  /\ node_stopped <$> nodes st' !! 0%nat = Some false
  /\ nextStartTime st' = (60001 # 12000)%Q
  /\ is_interrupted (interruption_with_audio (of_string "AA==")) = true
  /\ snd (onmessage (6 # 1)%Q (interruption_with_audio (of_string "AA==")) playing)
     = Throw RangeError
  /\ 0%nat ∈ sources st''
  /\ node_stopped <$> nodes st'' !! 0%nat = Some false
  /\ nextStartTime st'' = (6 # 1)%Q.
Proof.
  cbv zeta.
  rewrite (onmessage_without_parts (6 # 1)%Q interruption_without_parts
             {| modelTurn := Some {| parts := None |}; interrupted := Some true |}
             {| parts := None |} _ eq_refl eq_refl eq_refl).
  cbn [fst snd].
  split_and!; try reflexivity;
    apply (bool_decide_unpack _); vm_compute; exact I.
Qed.

End PlaybackRuns.

(** ** The live session: opening and closing *)

Section SessionFacts.
Import Live.

Lemma stop_tracks_twice (tracks : list track_state) :
  forall i : nat,
    let first := stop_tracks i tracks in
    let second := stop_tracks i (fst first) in
    fst second = fst first
    /\ map fst (snd second) = map fst (snd first)
    /\ Forall (fun c => snd c = NoEffect) (snd second)
    /\ Forall (eq EndedTrack) (fst first)
    /\ (Forall (eq LiveTrack) tracks -> Forall (fun c => snd c = Released) (snd first)).
Proof.
  induction tracks as [|t rest IH]; intros i; cbn [stop_tracks].
  - cbn. split_and!; auto.
  - specialize (IH (S i)). cbv zeta in IH.
    destruct (stop_tracks (S i) rest) as [rest' log] eqn:Hfirst.
    cbn [fst snd] in IH.
    destruct t; cbn [track_stop fst snd stop_tracks];
      destruct (stop_tracks (S i) rest') as [rest'' log'] eqn:Hsecond;
      cbn [fst snd map] in *;
      destruct IH as (Hst & Hcalls & Hno & Hended & Hlive);
      (split_and!;
       [ congruence | congruence | constructor; auto | constructor; auto
       | intros Hall; inversion Hall; subst; try discriminate; constructor; auto ]).
Qed.

Lemma context_close_twice (s : context_state) :
  fst (context_close s) = Closed
  /\ context_close (fst (context_close s)) = (Closed, Rejected InvalidStateError).
Proof. destruct s; auto. Qed.

Lemma close_processor_settled sp : settled close_processor sp.
Proof. destruct sp as [[|]|]; repeat split; repeat constructor; discriminate. Qed.

Lemma close_input_settled ctx : settled close_input ctx.
Proof. destruct ctx as [[|]|]; repeat split; repeat constructor; discriminate. Qed.

Lemma close_output_settled s : settled close_output s.
Proof. destruct s; repeat split; repeat constructor; discriminate. Qed.

Lemma close_session_settled s : settled close_session s.
Proof. destruct s; repeat split; repeat constructor; discriminate. Qed.

Lemma close_stream_settled stream : settled close_stream stream.
Proof.
  destruct stream as [tracks|]; [|repeat split; constructor].
  unfold settled, close_stream.
  pose proof (stop_tracks_twice tracks 0) as Htwice. cbv zeta in Htwice.
  destruct (stop_tracks 0 tracks) as [tracks' log]. cbn [fst snd] in *.
  destruct (stop_tracks 0 tracks') as [tracks'' log']. cbn [fst snd] in *.
  destruct Htwice as (-> & Hcalls & Hno & _). split_and!; auto.
  eapply Forall_impl; [exact Hno|]. cbn. intros c ->. discriminate.
Qed.

Lemma close_stream_ended stream tracks :
  fst (close_stream stream) = Some tracks -> Forall (eq EndedTrack) tracks.
Proof.
  destruct stream as [tracks0|]; [|discriminate]. unfold close_stream.
  pose proof (stop_tracks_twice tracks0 0) as Htwice. cbv zeta in Htwice.
  destruct (stop_tracks 0 tracks0) as [tracks' log]. cbn [fst snd] in *.
  intros [= <-]. apply Htwice.
Qed.

Lemma close_stream_live tracks :
  Forall (eq LiveTrack) tracks ->
  Forall (fun c => snd c = Released) (snd (close_stream (Some tracks))).
Proof.
  intros Hlive. unfold close_stream.
  pose proof (stop_tracks_twice tracks 0) as Htwice. cbv zeta in Htwice.
  destruct (stop_tracks 0 tracks) as [tracks' log]. cbn [fst snd] in *.
  now apply Htwice.
Qed.

(** [close], statement by statement. *)
Lemma close_parts (r : Resources) :
  close r =
  ({| scriptProcessor := fst (close_processor (scriptProcessor r));
      inputAudioContext := fst (close_input (inputAudioContext r));
      audioStream := fst (close_stream (audioStream r));
      outputAudioContext := fst (close_output (outputAudioContext r));
      session := fst (close_session (session r)) |},
   snd (close_processor (scriptProcessor r))
   ++ snd (close_input (inputAudioContext r))
   ++ snd (close_stream (audioStream r))
   ++ snd (close_output (outputAudioContext r))
   ++ snd (close_session (session r))).
Proof.
  unfold close.
  destruct (close_processor _), (close_input _), (close_stream _),
    (close_output _), (close_session _). reflexivity.
Qed.

(** C7 (as amended).  A second [close()] right after the first throws
    nothing and leaves the resources as the first left them, all released;
    the first one releases every resource in use, and the second releases
    nothing again.  The second one is not a no-op: it makes the same release
    calls once more, and [close()] of the output context, closed already,
    comes back rejected with an [InvalidStateError]. *)
Theorem close_twice (r : Resources) :
  let first := close r in
  let second := close (fst first) in
  fst second = fst first
  /\ all_released (fst first)
  /\ (all_live r -> Forall (fun c => snd c = Released) (snd first))
  /\ Forall (fun c => snd c <> Released) (snd second)
  /\ map fst (snd second) = map fst (snd first)
  /\ In (OutputContext, Rejected InvalidStateError) (snd second).
Proof.
  cbv zeta. rewrite (close_parts r). cbn [fst snd]. rewrite close_parts.
  cbn [fst snd scriptProcessor inputAudioContext audioStream outputAudioContext
         session].
  destruct (close_processor_settled (scriptProcessor r)) as (Hp1 & Hp2 & Hp3).
  destruct (close_input_settled (inputAudioContext r)) as (Hi1 & Hi2 & Hi3).
  destruct (close_stream_settled (audioStream r)) as (Hs1 & Hs2 & Hs3).
  destruct (close_output_settled (outputAudioContext r)) as (Ho1 & Ho2 & Ho3).
  destruct (close_session_settled (session r)) as (Hc1 & Hc2 & Hc3).
  cbv zeta in *. split_and!.
  - now rewrite Hp1, Hi1, Hs1, Ho1, Hc1.
  - unfold all_released. cbn [scriptProcessor inputAudioContext audioStream
      outputAudioContext session]. split_and!.
    + destruct (scriptProcessor r) as [[|]|]; discriminate.
    + destruct (inputAudioContext r) as [[|]|]; discriminate.
    + apply close_stream_ended.
    + now destruct (outputAudioContext r).
    + now destruct (session r).
  - intros (Hsp & Hic & (tracks & Htr & Hlive) & Hoc & Hse).
    rewrite Hsp, Hic, Htr, Hoc, Hse.
    repeat (apply Forall_app; split); try (repeat constructor).
    now apply close_stream_live.
  - repeat (apply Forall_app; split); assumption.
  - rewrite !map_app.
    f_equal; [exact Hp2|f_equal; [exact Hi2|f_equal; [exact Hs2|f_equal; [exact Ho2|exact Hc2]]]].
  - rewrite !in_app_iff. right. right. right. left.
    destruct (outputAudioContext r); cbn; auto.
Qed.

(** The session as [startLiveConversation] hands it over, closed twice:
    the second [close()] makes all five release calls again, and the two
    [AudioContext.close()] calls come back rejected.  C7 as stated (no error,
    every release exactly once) does not hold. *)
Lemma close_twice_rejected :
  snd (close (fst (close opened_session))) =
  [(CapturePipeline, NoEffect); (InputContext, Rejected InvalidStateError);
   (Track 0, NoEffect); (OutputContext, Rejected InvalidStateError);
   (RemoteSession, NoEffect)]
  /\ ~ no_rejection (snd (close (fst (close opened_session)))).
Proof.
  split; [reflexivity|]. cbn. unfold no_rejection. intros Hquiet.
  inversion_clear Hquiet as [|? ? _ Hrest]. inversion_clear Hrest as [|? ? Hin _].
  exact (Hin InvalidStateError eq_refl).
Qed.

Example close_once :
  close opened_session =
  ({| scriptProcessor := Some false; inputAudioContext := Some Closed;
      audioStream := Some [EndedTrack]; outputAudioContext := Closed;
      session := SocketClosed |},
   [(CapturePipeline, Released); (InputContext, Released); (Track 0, Released);
    (OutputContext, Released); (RemoteSession, Released)]).
Proof. reflexivity. Qed.

(** C8, on the code.  When the connection opens and the microphone is
    refused, [startLiveConversation] still resolves with a session handle:
    the capture pipeline is not set up, the connection stays open, and the
    rejection of [getUserMedia] is left unhandled inside [onopen].
    Whatever the microphone does, [startLiveConversation] rejects exactly
    when [connect] does, with the error of [connect]. *)
Theorem startLiveConversation_microphone_denied (e : exn) :
  startLiveConversation Connected (Denied e) =
  {| returned := Ok {| scriptProcessor := None; inputAudioContext := None;
                       audioStream := None; outputAudioContext := Running;
                       session := SocketOpen |};
     unhandled := [e] |}
  /\ forall (conn : connect_outcome) (mic : media_outcome) (e' : exn),
       returned (startLiveConversation conn mic) = Throw e'
       <-> conn = ConnectFailed e'.
Proof.
  split; [reflexivity|].
  intros conn mic e'. unfold startLiveConversation.
  destruct conn as [|e0].
  - destruct (onopen mic _) as [r1 opened]. cbn. split; discriminate.
  - cbn. split; intros [= ->]; reflexivity.
Qed.

Example startLiveConversation_granted :
  startLiveConversation Connected (Granted 1) =
  {| returned := Ok opened_session; unhandled := [] |}.
Proof. reflexivity. Qed.

Example startLiveConversation_no_connection :
  returned (startLiveConversation (ConnectFailed (Error "offline")) (Granted 1))
  = Throw (Error "offline").
Proof. reflexivity. Qed.

End SessionFacts.

(** * Further properties of the code *)

(** ** Base64 text *)

Section Base64Text.
Import Base64 Codec.

Lemma encode_bytes_ok (b : list Z) :
  Forall u8 b -> encode b = Ok (encode_bytes b).
Proof.
  intros Hb. unfold encode. now rewrite map_ToUint16_bytes, btoa_bytes.
Qed.

Lemma decode_encode_bytes (b : list Z) :
  Forall u8 b -> decode (encode_bytes b) = Ok b.
Proof.
  intros Hb. unfold decode. rewrite atob_encode_bytes by assumption.
  cbn. unfold mret, result_ret. now rewrite map_ToUint8_bytes.
Qed.

(** [encode] loses nothing: two byte arrays that differ give texts that
    differ. *)
Theorem encode_injective (b1 b2 : list Z) :
  Forall u8 b1 -> Forall u8 b2 -> b1 <> b2 -> encode b1 <> encode b2.
Proof.
  intros H1 H2 Hne Heq.
  rewrite !encode_bytes_ok in Heq by assumption. injection Heq as Heq.
  apply Hne.
  assert (Hd : decode (encode_bytes b1) = decode (encode_bytes b2)) by now rewrite Heq.
  rewrite !decode_encode_bytes in Hd by assumption. now injection Hd.
Qed.

Lemma encode_injective_witness :
  Forall u8 [1; 2] /\ Forall u8 [1; 3] /\ encode [1; 2] <> encode [1; 3].
Proof.
  assert (H1 : Forall u8 [1; 2]) by (repeat constructor; unfold u8; lia).
  assert (H2 : Forall u8 [1; 3]) by (repeat constructor; unfold u8; lia).
  split; [exact H1|]. split; [exact H2|].
  apply (encode_injective [1; 2] [1; 3] H1 H2). discriminate.
Defined.

Lemma encode_bytes_length (b : list Z) :
  length (encode_bytes b) = (4 * ((length b + 2) / 3))%nat.
Proof.
  induction b as [|x|x y|x y z l IH] using list_ind3; try reflexivity.
  cbn [encode_bytes length]. rewrite IH.
  replace (S (S (S (length l))) + 2)%nat with (length l + 2 + 1 * 3)%nat by lia.
  rewrite Nat.div_add by lia. lia.
Qed.

Lemma encode_bytes_alphabet (b : list Z) :
  Forall u8 b ->
  Forall (fun c => is_Some (b64_index c) \/ c = equals_sign) (encode_bytes b).
Proof.
  intros Hb. rewrite encode_bytes_shape. apply Forall_app. split.
  - apply Forall_map. eapply Forall_impl; [apply sextets_range, Hb|].
    intros s Hs. left. rewrite b64_index_char by assumption. eauto.
  - destruct (padding_cases b) as [-> | [-> | ->]];
      repeat (apply Forall_cons; split; [right; reflexivity|]); apply Forall_nil_2.
Qed.

(** The text [encode] produces for [n] bytes has [4 * ceil (n / 3)]
    characters, all of them base64 digits or the padding sign: [encode]
    never fails on a byte array. *)
Theorem encode_text_shape (b : list Z) :
  Forall u8 b ->
  exists text : jsstring,
    encode b = Ok text
    /\ length text = (4 * ((length b + 2) / 3))%nat
    /\ Forall (fun c => is_Some (b64_index c) \/ c = equals_sign) text.
Proof.
  intros Hb. exists (encode_bytes b).
  split; [now apply encode_bytes_ok|].
  split; [apply encode_bytes_length|now apply encode_bytes_alphabet].
Qed.

Lemma encode_text_shape_witness :
  exists text : jsstring,
    encode [72; 105; 33; 10] = Ok text
    /\ length text = 8%nat
    /\ Forall (fun c => is_Some (b64_index c) \/ c = equals_sign) text.
Proof.
  apply (encode_text_shape [72; 105; 33; 10]).
  repeat constructor; unfold u8; lia.
Defined.

Lemma strip_equals_Some (d d' : jsstring) :
  strip_equals d = Some d' -> d = d' ++ [equals_sign].
Proof.
  unfold strip_equals. destruct (rev d) as [|c r] eqn:Hrev; [discriminate|].
  destruct (Z.eqb_spec c equals_sign) as [->|]; [|discriminate].
  intros [= <-]. rewrite <- (rev_involutive d), Hrev. reflexivity.
Qed.

Lemma remove_padding_prefix (d : jsstring) :
  exists p : jsstring,
    d = remove_padding d ++ p /\ Forall (eq equals_sign) p.
Proof.
  unfold remove_padding. destruct (length d mod 4 =? 0)%nat.
  - destruct (strip_equals d) as [d1|] eqn:H1.
    + apply strip_equals_Some in H1 as ->.
      destruct (strip_equals d1) as [d2|] eqn:H2.
      * apply strip_equals_Some in H2 as ->.
        exists [equals_sign; equals_sign]. rewrite <- app_assoc. split; [reflexivity|].
        repeat constructor.
      * exists [equals_sign]. split; [reflexivity|]. repeat constructor.
    + exists []. rewrite app_nil_r. split; [reflexivity|constructor].
  - exists []. rewrite app_nil_r. split; [reflexivity|constructor].
Qed.

(** [decode] accepts nothing outside the alphabet: a character that is not
    a base64 digit, ASCII white space or the padding sign, anywhere in the
    text, makes it throw an [InvalidCharacterError].  The URL-safe digits
    [-] and [_] are such characters. *)
Theorem decode_rejects_foreign_character (text : jsstring) (c : Z) :
  In c text -> is_ascii_whitespace c = false -> c <> equals_sign ->
  b64_index c = None ->
  decode text = Throw InvalidCharacterError.
Proof.
  intros Hin Hws Heq Hidx. unfold decode, atob.
  set (data := List.filter (fun c => negb (is_ascii_whitespace c)) text).
  assert (Hdata : In c (remove_padding data)).
  { assert (Hc : In c data) by (apply filter_In; split; [exact Hin|now rewrite Hws]).
    destruct (remove_padding_prefix data) as (p & Hp & Hall).
    rewrite Hp in Hc. apply in_app_or in Hc as [Hc|Hc]; [exact Hc|].
    rewrite List.Forall_forall in Hall. specialize (Hall c Hc). congruence. }
  destruct (length (remove_padding data) mod 4 =? 1)%nat; [reflexivity|].
  destruct (mapM b64_index (remove_padding data)) as [ss|] eqn:Hmap; [|reflexivity].
  exfalso. assert (Hsome : is_Some (mapM b64_index (remove_padding data))) by eauto.
  apply mapM_is_Some_1 in Hsome. rewrite List.Forall_forall in Hsome.
  specialize (Hsome c Hdata). cbn in Hsome. rewrite Hidx in Hsome.
  now destruct Hsome.
Qed.

Lemma decode_rejects_foreign_character_witness :
  decode (of_string "SGVs-G8=") = Throw InvalidCharacterError.
Proof.
  apply (decode_rejects_foreign_character (of_string "SGVs-G8=") 45).
  - vm_compute. auto 10.
  - reflexivity.
  - discriminate.
  - reflexivity.
Defined.

Lemma decode_sextets_length (ss : list Z) :
  (4 * length (decode_sextets ss) <= 3 * length ss)%nat.
Proof.
  cut (forall l : list Z,
          (4 * length (decode_sextets l) <= 3 * length l)%nat
          /\ (forall a, 4 * length (decode_sextets (a :: l)) <= 3 * length (a :: l))%nat
          /\ (forall a b, 4 * length (decode_sextets (a :: b :: l))
                          <= 3 * length (a :: b :: l))%nat
          /\ (forall a b c, 4 * length (decode_sextets (a :: b :: c :: l))
                            <= 3 * length (a :: b :: c :: l))%nat).
  { intros Hall. apply Hall. }
  induction l as [|x l (IH0 & IH1 & IH2 & IH3)].
  - cbn. repeat split; intros; lia.
  - split; [apply IH1|]. split; [intros a; apply IH2|].
    split; [intros a b; apply IH3|].
    intros a b c. cbn [decode_sextets length]. lia.
Qed.

Lemma remove_padding_length (d : jsstring) :
  (length (remove_padding d) <= length d)%nat.
Proof.
  destruct (remove_padding_prefix d) as (p & Hp & _).
  rewrite Hp at 2. rewrite length_app. lia.
Qed.

(** What [decode] returns is an array of bytes, and never longer than three
    quarters of the text. *)
Theorem decode_output_bytes (text : jsstring) (bytes : list Z) :
  decode text = Ok bytes ->
  Forall u8 bytes /\ (4 * length bytes <= 3 * length text)%nat.
Proof.
  unfold decode, atob.
  set (data := List.filter (fun c => negb (is_ascii_whitespace c)) text).
  destruct (length (remove_padding data) mod 4 =? 1)%nat; [discriminate|].
  destruct (mapM b64_index (remove_padding data)) as [ss|] eqn:Hmap; [|discriminate].
  cbn. intros [= <-]. split.
  - apply Forall_map, Forall_forall. intros x _. unfold u8, ToUint8.
    apply Z.mod_pos_bound. lia.
  - rewrite length_map. pose proof (decode_sextets_length ss) as Hss.
    apply length_mapM in Hmap. pose proof (remove_padding_length data) as Hpad.
    assert (Hfil : (length data <= length text)%nat) by apply filter_length_le.
    lia.
Qed.

Lemma decode_output_bytes_witness :
  Forall u8 (of_string "Hello")
  /\ (4 * length (of_string "Hello") <= 3 * length (of_string " SGVs bG8="))%nat.
Proof.
  apply (decode_output_bytes (of_string " SGVs bG8=") (of_string "Hello")).
  reflexivity.
Defined.

End Base64Text.

(** ** PCM samples on the capture path *)

Section CaptureFacts.
Import Base64 Codec.

Lemma Uint8Array_of_int16_u8 (samples : list Z) :
  Forall u8 (Uint8Array_of_int16 samples).
Proof.
  induction samples as [|s l IH]; [constructor|].
  cbn [Uint8Array_of_int16 flat_map app]. fold (Uint8Array_of_int16 l).
  unfold u8, ToUint16 in *.
  repeat (constructor; [Z.div_mod_to_equations; lia|]). exact IH.
Qed.

Lemma Uint8Array_of_int16_length (samples : list Z) :
  length (Uint8Array_of_int16 samples) = (2 * length samples)%nat.
Proof.
  induction samples as [|s l IH]; [reflexivity|].
  cbn [Uint8Array_of_int16 flat_map app length]. fold (Uint8Array_of_int16 l).
  rewrite IH. lia.
Qed.

Lemma int16_view_bytes (samples : list Z) :
  Forall int16 samples -> int16_view (Uint8Array_of_int16 samples) = samples.
Proof.
  induction 1 as [|s l Hs _ IH]; [reflexivity|].
  cbn [Uint8Array_of_int16 flat_map app int16_view]. fold (Uint8Array_of_int16 l).
  rewrite IH. f_equal. unfold int16, ToInt16, ToUint16 in *. cbv zeta.
  destruct (Z.leb_spec 32768 ((s mod 65536 mod 256 + 256 * (s mod 65536 / 256)) mod 65536));
    Z.div_mod_to_equations; lia.
Qed.

Lemma Int16Array_of_bytes (samples : list Z) :
  Forall int16 samples ->
  Int16Array_of_buffer (Uint8Array_of_int16 samples) = Ok samples.
Proof.
  intros Hs. unfold Int16Array_of_buffer.
  rewrite Uint8Array_of_int16_length.
  replace (2 * length samples)%nat with (0 + length samples * 2)%nat by lia.
  rewrite Nat.Div0.mod_add. cbn. now rewrite int16_view_bytes.
Qed.

(** 16-bit samples written out as bytes and viewed as 16-bit samples again
    are the same samples: two bytes each, low byte first. *)
Theorem int16_bytes_roundtrip (samples : list Z) :
  Forall int16 samples ->
  let bytes := Uint8Array_of_int16 samples in
  Forall u8 bytes
  /\ length bytes = (2 * length samples)%nat
  /\ Int16Array_of_buffer bytes = Ok samples.
Proof.
  intros Hs. split; [apply Uint8Array_of_int16_u8|].
  split; [apply Uint8Array_of_int16_length|now apply Int16Array_of_bytes].
Qed.

Lemma int16_bytes_roundtrip_witness :
  let bytes := Uint8Array_of_int16 [0; -1; 32767; -32768] in
  Forall u8 bytes
  /\ length bytes = 8%nat
  /\ Int16Array_of_buffer bytes = Ok [0; -1; 32767; -32768].
Proof.
  apply (int16_bytes_roundtrip [0; -1; 32767; -32768]).
  repeat constructor; unfold int16; lia.
Defined.

Lemma float_to_int16_all (inputData : list Q) :
  Forall int16 (map float_to_int16 inputData).
Proof.
  apply Forall_map, Forall_forall. intros x _. apply ToInt16_range.
Qed.

(** A block of microphone samples always yields a frame: [onaudioprocess]
    does not throw, whatever the samples; the frame's text has
    [4 * ceil (2 n / 3)] characters for [n] samples, and decoding it gives
    back exactly the 16-bit values that were stored. *)
Theorem capture_frame_decodes (inputData : list Q) :
  exists frame : PcmBlob,
    onaudioprocess inputData = Ok frame
    /\ pcm_mimeType frame = "audio/pcm;rate=16000"%string
    /\ length (pcm_data frame) = (4 * ((2 * length inputData + 2) / 3))%nat
    /\ decode (pcm_data frame) ≫= Int16Array_of_buffer
       = Ok (map float_to_int16 inputData).
Proof.
  unfold onaudioprocess.
  set (samples := map float_to_int16 inputData).
  pose proof (float_to_int16_all inputData) as Hs. fold samples in Hs.
  pose proof (Uint8Array_of_int16_u8 samples) as Hb.
  rewrite (encode_bytes_ok _ Hb). cbn [mbind result_bind mret result_ret].
  eexists. split; [reflexivity|]. cbn [pcm_data pcm_mimeType].
  split; [reflexivity|]. split.
  - rewrite encode_bytes_length, Uint8Array_of_int16_length.
    unfold samples. now rewrite length_map.
  - rewrite (decode_encode_bytes _ Hb). cbn. now apply Int16Array_of_bytes.
Qed.

Lemma Qtruncate_bounds (x : Q) :
  (-1 <= x)%Q -> (x < 1)%Q ->
  -32768 <= truncate (x * 32768)%Q < 32768.
Proof.
  destruct x as [p q]. unfold Qle, Qlt, truncate. cbn.
  intros Hlo Hhi. rewrite Pos.mul_1_r.
  pose proof (Pos2Z.is_pos q) as Hq.
  Z.to_euclidean_division_equations. nia.
Qed.

(** For a sample in the nominal range [-1, 1) nothing wraps: the value
    stored is the integral part of the sample times 32768, it lies in
    [-32768, 32767], and it is less than one step away from the product. *)
Theorem float_to_int16_nominal (sample : Q) :
  (-1 <= sample)%Q -> (sample < 1)%Q ->
  float_to_int16 sample = truncate (sample * 32768)%Q
  /\ -32768 <= float_to_int16 sample <= 32767
  /\ ((float_to_int16 sample # 1) - 1 < sample * 32768)%Q
  /\ (sample * 32768 < (float_to_int16 sample # 1) + 1)%Q.
Proof.
  intros Hlo Hhi. pose proof (Qtruncate_bounds sample Hlo Hhi) as Hb.
  unfold float_to_int16. rewrite ToInt16_small by exact Hb.
  split; [reflexivity|]. split; [lia|].
  destruct sample as [p q]. unfold Qlt, Qminus, Qplus, Qopp, truncate in *. cbn in *.
  rewrite Pos.mul_1_r in *.
  pose proof (Pos2Z.is_pos q) as Hq.
  Z.to_euclidean_division_equations. nia.
Qed.

Lemma float_to_int16_nominal_witness :
  float_to_int16 (-3 # 4) = truncate ((-3 # 4) * 32768)%Q
  /\ -32768 <= float_to_int16 (-3 # 4) <= 32767
  /\ ((float_to_int16 (-3 # 4) # 1) - 1 < (-3 # 4) * 32768)%Q
  /\ ((-3 # 4) * 32768 < (float_to_int16 (-3 # 4) # 1) + 1)%Q.
Proof.
  apply (float_to_int16_nominal (-3 # 4)); reflexivity || (unfold Qle; simpl; lia).
Defined.

End CaptureFacts.

(** ** Audio buffers and WAV files *)

Section AudioFacts.
Import Base64 Codec.

Lemma int16_view_range (bytes : list Z) : Forall int16 (int16_view bytes).
Proof.
  cut (forall l : list Z,
          Forall int16 (int16_view l) /\ forall a, Forall int16 (int16_view (a :: l))).
  { intros Hall. apply Hall. }
  induction l as [|b l [IH0 IH1]].
  - split; [constructor|intros a; constructor].
  - split; [apply IH1|]. intros a. cbn [int16_view].
    constructor; [apply ToInt16_range|exact IH0].
Qed.

Lemma fill_channel_normalized (dataInt16 : list Z) (numChannels frames : Z)
    (channel : nat) :
  Forall int16 dataInt16 ->
  Forall (fun v => (-1 <= v)%Q /\ (v < 1)%Q)
         (fill_channel dataInt16 numChannels frames channel).
Proof.
  intros Hd. unfold fill_channel. apply Forall_map, Forall_forall. intros i _.
  destruct (dataInt16 !! _) as [s|] eqn:Hs.
  - rewrite Forall_lookup in Hd. specialize (Hd _ _ Hs). unfold int16 in Hd.
    unfold Qle, Qlt. cbn. lia.
  - unfold Qle, Qlt. cbn. lia.
Qed.

(** Every sample of a decoded buffer lies in [-1, 1): [-32768] becomes
    [-1], and no sample reaches [1]. *)
Theorem decodeAudioData_normalized (data : list Z) (sampleRate numChannels : Z)
    (buffer : AudioBuffer) :
  decodeAudioData data sampleRate numChannels = Ok buffer ->
  Forall (Forall (fun v => (-1 <= v)%Q /\ (v < 1)%Q)) (channelData buffer).
Proof.
  unfold decodeAudioData, Int16Array_of_buffer.
  destruct (length data mod 2 =? 0)%nat; [|discriminate].
  cbn [mbind result_bind].
  destruct (createBuffer _ _ _) as [b|e]; [|discriminate].
  cbn [mret result_ret]. intros [= <-]. cbn [channelData].
  apply Forall_map, Forall_forall. intros channel _.
  apply fill_channel_normalized, int16_view_range.
Qed.

Lemma decodeAudioData_normalized_witness :
  Forall (Forall (fun v => (-1 <= v)%Q /\ (v < 1)%Q))
         [[0 # 32768; -32768 # 32768; 32767 # 32768]]%Q.
Proof.
  apply (decodeAudioData_normalized [0; 0; 0; 128; 255; 127] 24000 1
           {| numberOfChannels := 1; buffer_length := 3; buffer_sampleRate := 24000;
              channelData := [[0 # 32768; -32768 # 32768; 32767 # 32768]]%Q |}).
  reflexivity.
Defined.

(** Frame [i] of channel [c] is sample [i * channels + c] of the input,
    divided by 32768: the samples are de-interleaved, and no index falls
    outside the input. *)
Theorem decodeAudioData_deinterleaves (data : list Z) (sampleRate numChannels : Z)
    (buffer : AudioBuffer) (c i : nat) :
  1 <= numChannels <= 32 -> Z.of_nat (length data) < 4294967296 ->
  decodeAudioData data sampleRate numChannels = Ok buffer ->
  Z.of_nat c < numChannels -> Z.of_nat i < buffer_length buffer ->
  exists (s : Z) (channel : list Q),
    int16_view data !! (i * Z.to_nat numChannels + c)%nat = Some s
    /\ channelData buffer !! c = Some channel
    /\ channel !! i = Some (s # 32768)%Q.
Proof.
  intros Hch Hlen Hok Hc Hi. revert Hok Hi.
  unfold decodeAudioData, Int16Array_of_buffer.
  destruct (length data mod 2 =? 0)%nat; [|discriminate].
  cbn [mbind result_bind]. unfold createBuffer.
  pose proof (int16_view_length data) as Hview.
  assert (Hs : 0 <= Z.of_nat (length (int16_view data)) < 4294967296)
    by (rewrite Hview; Z.div_mod_to_equations; lia).
  rewrite truncate_quotient by lia.
  set (samples := Z.of_nat (length (int16_view data))) in *.
  assert (Hf : 0 <= samples / numChannels < 4294967296)
    by (Z.div_mod_to_equations; nia).
  unfold ToUint32. rewrite !Z.mod_small by lia.
  destruct (_ && _); [|discriminate].
  cbn [mret result_ret numberOfChannels buffer_length buffer_sampleRate].
  intros [= <-]. cbn [channelData buffer_length]. intros Hi.
  assert (Hidx : (i * Z.to_nat numChannels + c < length (int16_view data))%nat).
  { apply Nat2Z.inj_lt. rewrite Nat2Z.inj_add, Nat2Z.inj_mul, Z2Nat.id by lia.
    fold samples. Z.div_mod_to_equations. nia. }
  destruct (lookup_lt_is_Some_2 _ _ Hidx) as [s Hsample].
  exists s, (fill_channel (int16_view data) numChannels (samples / numChannels) c).
  split; [exact Hsample|]. split.
  - change (map ?f ?l) with (f <$> l). rewrite list_lookup_fmap.
    rewrite (proj2 (lookup_seq 0 (Z.to_nat numChannels) c c)); [reflexivity|].
    split; [reflexivity|lia].
  - unfold fill_channel. change (map ?f ?l) with (f <$> l). rewrite list_lookup_fmap.
    rewrite (proj2 (lookup_seq 0 (Z.to_nat (samples / numChannels)) i i)); [|split; [reflexivity|lia]].
    cbn. now rewrite Hsample.
Qed.

Lemma decodeAudioData_deinterleaves_witness :
  exists (s : Z) (channel : list Q),
    int16_view [1; 0; 2; 0; 3; 0; 4; 0] !! (1 * Z.to_nat 2 + 1)%nat = Some s
    /\ [[1 # 32768; 3 # 32768]; [2 # 32768; 4 # 32768]]%Q !! 1%nat = Some channel
    /\ channel !! 1%nat = Some (s # 32768)%Q.
Proof.
  apply (decodeAudioData_deinterleaves [1; 0; 2; 0; 3; 0; 4; 0] 24000 2
           {| numberOfChannels := 2; buffer_length := 2; buffer_sampleRate := 24000;
              channelData := [[1 # 32768; 3 # 32768]; [2 # 32768; 4 # 32768]]%Q |}
           1 1); try reflexivity; simpl; lia.
Defined.

(** [pcmToWav] never fails.  Its blob is 44 bytes longer than the payload
    and ends with the payload; the two size fields hold 36 + length and the
    length reduced modulo 2^32, which is what [setUint32] stores of a value
    that does not fit. *)
Theorem pcmToWav_total (pcmData : list Z) (sampleRate numChannels bitsPerSample : Q) :
  exists wav : Blob,
    pcmToWav pcmData sampleRate numChannels bitsPerSample = Ok wav
    /\ blob_type wav = "audio/wav"%string
    /\ length (blob_bytes wav) = (44 + length pcmData)%nat
    /\ drop 44 (blob_bytes wav) = pcmData
    /\ read_le (field 4 4 (blob_bytes wav))
       = (36 + Z.of_nat (length pcmData)) mod 4294967296
    /\ read_le (field 40 4 (blob_bytes wav))
       = Z.of_nat (length pcmData) mod 4294967296.
Proof.
  eexists. split; [apply pcmToWav_bytes|]. cbn [blob_bytes blob_type].
  destruct (wav_header_fields (Z.of_nat (length pcmData)) sampleRate numChannels
              bitsPerSample pcmData)
    as (_ & Hchunk & _ & _ & _ & _ & _ & Hsize & _ & Hpay).
  cbv zeta in *. rewrite Hchunk, Hsize, Hpay.
  split; [reflexivity|]. split; [reflexivity|]. split; [reflexivity|].
  unfold ToUint32.
  split; apply read_le_le_bytes; cbn; apply Z.mod_pos_bound; lia.
Qed.

End AudioFacts.

(** ** Calls of the service *)

Section ServiceFacts.
Import Base64 Codec Service.

Lemma decode_throws (text : jsstring) (e : exn) :
  decode text = Throw e -> e = InvalidCharacterError.
Proof.
  unfold decode, atob.
  destruct (_ =? 1)%nat; [now intros [= <-]|].
  destruct (mapM _ _); [discriminate|now intros [= <-]].
Qed.

Lemma tts_header_fields (n : Z) (payload : list Z) :
  let bytes := wav_header n 24000 1 16 ++ payload in
  read_le (field 22 2 bytes) = 1
  /\ read_le (field 24 4 bytes) = 24000
  /\ read_le (field 28 4 bytes) = 48000
  /\ read_le (field 32 2 bytes) = 2
  /\ read_le (field 34 2 bytes) = 16.
Proof.
  unfold wav_header.
  generalize (ToUint32 (36 + n)) (ToUint32 n). intros chunkSize dataSize.
  repeat split; reflexivity.
Qed.

(** Speech synthesis, end to end: when the response carries audio text
    that decodes to [pcm], [generateSpeech] gives a WAV file of mono 16-bit
    audio at 24000 Hz (48000 bytes per second, 2 bytes per frame) whose
    payload is exactly [pcm]. *)
Theorem generateSpeech_wav (response : GenerateContentResponse)
    (audio : jsstring) (pcm : list Z) :
  speech_audio response = Some audio -> audio <> [] -> decode audio = Ok pcm ->
  exists wav : Blob,
    generateSpeech (Ok response) = Ok wav
    /\ blob_type wav = "audio/wav"%string
    /\ let bytes := blob_bytes wav in
       length bytes = (44 + length pcm)%nat
       /\ read_le (field 22 2 bytes) = 1
       /\ read_le (field 24 4 bytes) = 24000
       /\ read_le (field 28 4 bytes) = 48000
       /\ read_le (field 32 2 bytes) = 2
       /\ read_le (field 34 2 bytes) = 16
       /\ drop 44 bytes = pcm.
Proof.
  intros Haudio Hne Hpcm. unfold generateSpeech. cbn [mbind result_bind].
  rewrite Haudio. destruct audio as [|c s]; [contradiction|].
  rewrite Hpcm. cbn [mbind result_bind]. rewrite pcmToWav_bytes.
  eexists. split; [reflexivity|]. cbn [blob_type blob_bytes].
  split; [reflexivity|].
  destruct (tts_header_fields (Z.of_nat (length pcm)) pcm) as (H1 & H2 & H3 & H4 & H5).
  destruct (wav_header_fields (Z.of_nat (length pcm)) 24000 1 16 pcm)
    as (_ & _ & _ & _ & _ & _ & _ & _ & _ & Hpay).
  cbv zeta in *. split_and!; auto.
Qed.

Lemma generateSpeech_wav_witness :
  let response :=
    {| candidates :=
         Some [{| content :=
                    Some {| parts :=
                              Some [{| inlineData :=
                                         Some {| mimeType := None;
                                                 data := Some (of_string "AAAAQA==") |};
                                       text := None |}] |} |}] |} in
  exists wav : Blob,
    generateSpeech (Ok response) = Ok wav
    /\ blob_type wav = "audio/wav"%string
    /\ let bytes := blob_bytes wav in
       length bytes = 48%nat
       /\ read_le (field 22 2 bytes) = 1
       /\ read_le (field 24 4 bytes) = 24000
       /\ read_le (field 28 4 bytes) = 48000
       /\ read_le (field 32 2 bytes) = 2
       /\ read_le (field 34 2 bytes) = 16
       /\ drop 44 bytes = [0; 0; 0; 64].
Proof.
  apply (generateSpeech_wav _ (of_string "AAAAQA==") [0; 0; 0; 64]).
  - reflexivity.
  - discriminate.
  - reflexivity.
Defined.

(** [generateSpeech] fails in three ways only: the call to the model
    rejects, with that error; the response has no audio text, or an empty
    one, with "No audio data received."; or the text is not base64, with the
    [InvalidCharacterError] of [atob].  Writing the WAV file never fails. *)
Theorem generateSpeech_failures (api : result GenerateContentResponse) (e : exn) :
  generateSpeech api = Throw e <->
  api = Throw e
  \/ (exists response,
        api = Ok response
        /\ (speech_audio response = None \/ speech_audio response = Some [])
        /\ e = Error "No audio data received.")
  \/ (exists response audio,
        api = Ok response /\ speech_audio response = Some audio
        /\ decode audio = Throw e /\ e = InvalidCharacterError).
Proof.
  unfold generateSpeech. destruct api as [response|e0]; cbn [mbind result_bind].
  - destruct (speech_audio response) as [[|c s]|] eqn:Haudio.
    + split.
      * intros [= <-]. right. left. exists response. auto.
      * intros [H|[(r & Hr & Ha & He)|(r & a & Hr & Ha & Hd & He)]];
          simplify_eq; try reflexivity; cbn in *; congruence.
    + destruct (decode (c :: s)) as [pcm|e1] eqn:Hdec; cbn [mbind result_bind].
      * rewrite pcmToWav_bytes. split; [discriminate|].
        intros [H|[(r & Hr & Ha & He)|(r & a & Hr & Ha & Hd & He)]];
          simplify_eq; try (destruct Ha; congruence); congruence.
      * pose proof (decode_throws _ _ Hdec) as ->. split.
        -- intros [= <-]. right. right. exists response, (c :: s). auto.
        -- intros [H|[(r & Hr & Ha & He)|(r & a & Hr & Ha & Hd & He)]];
             simplify_eq; try (destruct Ha; congruence); congruence.
    + split.
      * intros [= <-]. right. left. exists response. auto.
      * intros [H|[(r & Hr & Ha & He)|(r & a & Hr & Ha & Hd & He)]];
          simplify_eq; try reflexivity; congruence.
  - split.
    + intros [= <-]. now left.
    + intros [H|[(r & Hr & _)|(r & a & Hr & _)]]; simplify_eq. reflexivity.
Qed.

Lemma find_inline_first (ps : list Part) :
  match find_inline ps with
  | Some p =>
      exists before after d,
        ps = before ++ p :: after
        /\ Forall (fun q => inlineData q = None) before
        /\ inlineData p = Some d
  | None => Forall (fun q => inlineData q = None) ps
  end.
Proof.
  unfold find_inline. induction ps as [|q ps IH]; cbn [List.find]; [constructor|].
  destruct (inlineData q) as [d|] eqn:Hq.
  - exists [], ps, d. repeat split; auto.
  - destruct (List.find _ ps) as [p|].
    + destruct IH as (before & after & d & -> & Hb & Hp).
      exists (q :: before), after, d. repeat split; auto.
    + constructor; auto.
Qed.

(** [editImage] answers with the first part of the first candidate that
    has inline data, as a data URL, skipping the parts before it; when no
    part has inline data (or there is no candidate, content or part list) it
    throws "No edited image found in response.". *)
Theorem editImage_first_inline (base64Data : jsstring)
    (response : GenerateContentResponse) :
  (exists before p after d,
      first_parts response = Some (before ++ p :: after)
      /\ Forall (fun q => inlineData q = None) before
      /\ inlineData p = Some d
      /\ editImage (Ok base64Data) (Ok response)
         = Ok (of_string "data:" ++ interpolate (mimeType d)
               ++ of_string ";base64," ++ interpolate (data d)))
  \/ ((first_parts response = None
       \/ exists ps, first_parts response = Some ps
                     /\ Forall (fun q => inlineData q = None) ps)
      /\ editImage (Ok base64Data) (Ok response)
         = Throw (Error "No edited image found in response.")).
Proof.
  unfold editImage. cbn [mbind result_bind].
  destruct (first_parts response) as [ps|]; cbn [mbind option_bind]; [|right; auto].
  pose proof (find_inline_first ps) as Hfind.
  destruct (find_inline ps) as [p|]; cbn [mbind option_bind].
  - destruct Hfind as (before & after & d & -> & Hb & Hp). rewrite Hp.
    left. exists before, p, after, d. auto.
  - right. split; [right; eauto|]. reflexivity.
Qed.

(** The chat request.  A location is sent only when the lookup succeeded
    and only together with the Maps tool; a failed lookup never fails the
    request and changes nothing else in it; without Maps grounding the
    lookup's outcome is not used.  The request has no [config] exactly when
    there is no grounding and the model is not the pro one, which alone gets
    a thinking budget. *)
Theorem chat_request_config (prompt : string) (mode : ChatMode)
    (grounding : GroundingMode) (position : result LatLng) :
  let r := chat_request prompt mode grounding position in
  model r = modelMap mode /\ contents r = prompt
  /\ (config r = None <-> grounding = none /\ mode <> pro)
  /\ (forall c, config r = Some c ->
        tools c <> Some []
        /\ (forall p, toolConfig c = Some p ->
              position = Ok p /\ exists ts, tools c = Some ts /\ In googleMaps ts)
        /\ (thinkingConfig c = Some 32768 <-> mode = pro)
        /\ (thinkingConfig c = None <-> mode <> pro))
  /\ (forall e p,
        let failed := chat_request prompt mode grounding (Throw e) in
        let located := chat_request prompt mode grounding (Ok p) in
        model failed = model located
        /\ (config failed ≫= tools) = (config located ≫= tools)
        /\ (config failed ≫= thinkingConfig) = (config located ≫= thinkingConfig)
        /\ (config failed ≫= toolConfig) = None)
  /\ (needsLocation grounding = false ->
      forall position', chat_request prompt mode grounding position' = r).
Proof.
  destruct mode, grounding, position as [p|e]; cbn;
    (split_and!;
     [ reflexivity | reflexivity | naive_solver
     | intros c [= <-]; cbn; naive_solver
     | intros e' p'; cbn; auto
     | intros H position'; try discriminate; destruct position'; reflexivity ]).
Qed.

End ServiceFacts.

(** ** Logic of the components *)

Section UiFacts.
Import Ui.

(** No record of the component owns ["__proto__"]. *)
Lemma feedback_no_proto (prev : gmap string Vote) :
  feedback prev -> prev !! proto = None.
Proof.
  induction 1 as [|uri vote prev _ IH]; [apply lookup_empty|].
  unfold handleVote.
  destruct (decide (prev !! uri = Some vote)).
  - destruct (decide (proto = uri)) as [<-|Hne];
      [apply lookup_delete_eq|now rewrite lookup_delete_ne].
  - destruct (decide (uri = proto /\ prev !! uri = None)) as [_|Hno]; [exact IH|].
    destruct (decide (proto = uri)) as [<-|Hne]; [|now rewrite lookup_insert_ne].
    exfalso. apply Hno. auto.
Qed.

(** Voting on a source sets its vote, unless the source carries that very
    vote, which is then withdrawn; the votes on other sources stay.  A
    second click on the same button undoes the first, except that the
    opposite vote the source had before the first click is not brought
    back.  The source named ["__proto__"] is the exception: a vote on it is
    not recorded, and the record stays as it is. *)
Theorem handleVote_toggle (uri : string) (vote : Vote) (prev : gmap string Vote) :
  prev !! proto = None ->
  (uri = proto -> handleVote uri vote prev = prev)
  /\ handleVote uri vote prev !! uri
     = (if decide (prev !! uri = Some vote \/ uri = proto) then None else Some vote)
  /\ (forall other : string, other <> uri ->
        handleVote uri vote prev !! other = prev !! other)
  /\ handleVote uri vote (handleVote uri vote prev)
     = (if decide (prev !! uri = None \/ prev !! uri = Some vote) then prev
        else delete uri prev).
Proof.
  intros Hproto.
  destruct (decide (uri = proto)) as [->|Hne].
  - assert (Hsame : forall v : Vote, handleVote proto v prev = prev).
    { intros v. unfold handleVote. rewrite Hproto.
      destruct (decide (None = Some v)); [discriminate|].
      destruct (decide (proto = proto /\ None = None)) as [_|Hno];
        [reflexivity|]. exfalso. apply Hno. auto. }
    rewrite !Hsame, Hproto.
    split_and!; [reflexivity | | reflexivity |].
    + destruct (decide (_ \/ _)) as [_|Hno]; [reflexivity|].
      exfalso. apply Hno. auto.
    + destruct (decide (_ \/ _)) as [_|Hno]; [reflexivity|].
      exfalso. apply Hno. auto.
  - unfold handleVote.
    destruct (decide (uri = proto /\ prev !! uri = None)) as [[Heq _]|_];
      [contradiction|].
    split_and!.
    + contradiction.
    + destruct (decide (prev !! uri = Some vote)) as [Hv|Hv].
      * rewrite lookup_delete_eq.
        destruct (decide (_ \/ _)) as [_|Hno]; [reflexivity|].
        exfalso. apply Hno. auto.
      * rewrite lookup_insert_eq.
        destruct (decide (_ \/ _)) as [[Hv'|Heq]|_]; [contradiction..|reflexivity].
    + intros other Hother. destruct (decide (prev !! uri = Some vote)).
      * now apply lookup_delete_ne.
      * now apply lookup_insert_ne.
    + destruct (decide (prev !! uri = Some vote)) as [Hv|Hv].
      * rewrite lookup_delete_eq.
        destruct (decide (None = Some vote)); [discriminate|].
        destruct (decide (uri = proto /\ None = None)) as [[Heq _]|_];
          [contradiction|].
        rewrite insert_delete_eq.
        destruct (decide (_ \/ _)) as [_|Hno]; [now apply insert_id|].
        exfalso. apply Hno. now right.
      * rewrite lookup_insert_eq.
        destruct (decide (Some vote = Some vote)); [|contradiction].
        rewrite delete_insert_eq.
        destruct (decide (_ \/ _)) as [[Hn|Hs]|_]; [|contradiction|reflexivity].
        now apply delete_id.
Qed.

Lemma handleVote_toggle_witness :
  let uri := "https://example.com/a"%string in
  let prev : gmap string Vote := {[ uri := down ]} in
  (uri = proto -> handleVote uri up prev = prev)
  /\ handleVote uri up prev !! uri
     = (if decide (prev !! uri = Some up \/ uri = proto) then None else Some up)
  /\ (forall other : string, other <> uri ->
        handleVote uri up prev !! other = prev !! other)
  /\ handleVote uri up (handleVote uri up prev)
     = (if decide (prev !! uri = None \/ prev !! uri = Some up) then prev
        else delete uri prev).
Proof.
  apply (handleVote_toggle "https://example.com/a" up
           {[ "https://example.com/a"%string := down ]}).
  vm_compute. reflexivity.
Defined.

(** A vote on the source named ["__proto__"] leaves the record empty. *)
Example handleVote_proto : handleVote "__proto__" up ∅ = ∅.
Proof. reflexivity. Qed.

Lemma toLowerCase_replace_char (c : Z) :
  name_char (if (65 <=? (if is_alphanumeric c then c else 95))
                && ((if is_alphanumeric c then c else 95) <=? 90)
             then (if is_alphanumeric c then c else 95) + 32
             else (if is_alphanumeric c then c else 95)).
Proof.
  unfold name_char, is_alphanumeric.
  repeat case_match; lia.
Qed.

(** The name a download gets is never longer than 30 characters and made
    of lower-case letters, digits and [_] only, one for each of the first 30
    characters of the prompt; a name that is built this way stays as it is
    when it is cleaned again.  The fallback is used for the empty prompt
    and for no other. *)
Theorem download_name_safe (prompt fallback : jsstring) :
  let name := download_name prompt fallback in
  (prompt = [] -> name = fallback)
  /\ (prompt <> [] ->
      length name = Nat.min 30 (length prompt)
      /\ Forall name_char name
      /\ download_name name fallback = name).
Proof.
  unfold download_name. split.
  - intros ->. reflexivity.
  - intros Hne.
    set (name := toLowerCase (replace_other (take 30 prompt))).
    assert (Hlen : length name = Nat.min 30 (length prompt)).
    { unfold name, toLowerCase, replace_other. now rewrite !length_map, length_take. }
    assert (Hchars : Forall name_char name).
    { unfold name, toLowerCase, replace_other. rewrite map_map.
      apply Forall_map, Forall_forall. intros c _. apply toLowerCase_replace_char. }
    assert (Hname : name <> []).
    { intros Hnil. rewrite Hnil in Hlen. destruct prompt; [contradiction|].
      cbn in Hlen. lia. }
    assert (Hfix : toLowerCase (replace_other (take 30 name)) = name).
    { rewrite take_ge by lia. unfold toLowerCase, replace_other. rewrite map_map.
      rewrite <- (map_id name) at 2. apply map_ext_Forall.
      eapply Forall_impl; [exact Hchars|]. intros c Hc. cbn.
      unfold name_char, is_alphanumeric in *. repeat case_match; lia. }
    destruct name as [|c rest] eqn:Hn; [contradiction|].
    split; [exact Hlen|]. split; [exact Hchars|]. now rewrite Hfix.
Qed.

Example download_name_prompt :
  download_name (of_string "A neon Cat, driving!") (of_string "generated_video")
  = of_string "a_neon_cat__driving_".
Proof. reflexivity. Qed.

Lemma handleMessage_line (message : LiveServerMessage) (st : Transcript) :
  transcription (handleMessage message st) = transcription st
  \/ exists t : string,
       t <> EmptyString
       /\ (transcription (handleMessage message st)
           = transcription st ++ [String.append "You: " t]
           \/ transcription (handleMessage message st)
              = transcription st ++ [String.append "Model: " t]).
Proof.
  unfold handleMessage.
  set (userText := match serverContent message ≫= inputTranscription with
                   | Some t => text t | None => Some EmptyString end).
  set (modelText := match serverContent message ≫= outputTranscription with
                    | Some t => text t | None => Some EmptyString end).
  assert (Hlines : forall u o l,
             (if truthy u || truthy o then
                l ++ [if truthy u then String.append "You: " (appended u)
                      else String.append "Model: " (appended o)]
              else l) = l
             \/ exists t, t <> EmptyString
                  /\ ((if truthy u || truthy o then
                         l ++ [if truthy u then String.append "You: " (appended u)
                               else String.append "Model: " (appended o)]
                       else l) = l ++ [String.append "You: " t]
                      \/ (if truthy u || truthy o then
                            l ++ [if truthy u then String.append "You: " (appended u)
                                  else String.append "Model: " (appended o)]
                          else l) = l ++ [String.append "Model: " t])).
  { intros [[|a u]|] [[|b o]|] l; cbn; auto;
      right; eexists; (split; [|eauto]); discriminate. }
  destruct (serverContent message ≫= turnComplete) as [[|]|]; cbn [transcription];
    apply Hlines.
Qed.

(** Each message of the session adds at most one line to the transcript,
    after the lines that are there, and every line is "You: " or "Model: "
    followed by a text that is not empty.  When one message carries both
    transcriptions with text, the line is the user's, and the model's text
    of that message is not shown; a message that completes the turn leaves
    both accumulators empty. *)
Theorem handleMessage_transcript (messages : list LiveServerMessage) (st : Transcript) :
  let st' := foldl (fun s m => handleMessage m s) st messages in
  (exists added : list string,
      transcription st' = transcription st ++ added
      /\ (length added <= length messages)%nat
      /\ Forall (fun line =>
                   exists t : string,
                     t <> EmptyString
                     /\ (line = String.append "You: " t
                         \/ line = String.append "Model: " t)) added)
  /\ (forall (u o : string) (done : option bool),
        u <> EmptyString ->
        transcription
          (handleMessage
             {| serverContent :=
                  Some {| inputTranscription := Some {| text := Some u |};
                          outputTranscription := Some {| text := Some o |};
                          turnComplete := done |} |} st)
        = transcription st ++ [String.append "You: " u])
  /\ (forall m, serverContent m ≫= turnComplete = Some true ->
        userInput (handleMessage m st) = EmptyString
        /\ modelOutput (handleMessage m st) = EmptyString).
Proof.
  split_and!.
  - revert st. induction messages as [|m ms IH]; intros st; cbn [foldl].
    + exists []. rewrite app_nil_r. split; [reflexivity|]. split; [cbn; lia|constructor].
    + destruct (IH (handleMessage m st)) as (added & Heq & Hlen & Hall).
      destruct (handleMessage_line m st) as [Hsame|(t & Ht & Hline)].
      * exists added. rewrite Heq, Hsame. split; [reflexivity|].
        split; [cbn; lia|exact Hall].
      * destruct Hline as [Hl|Hl];
          [exists (String.append "You: " t :: added)
          |exists (String.append "Model: " t :: added)];
          rewrite Heq, Hl, <- app_assoc;
          (split; [reflexivity|]); (split; [cbn; lia|]);
          constructor; eauto.
  - intros u o done Hu. unfold handleMessage. cbn.
    destruct u as [|a u]; [contradiction|].
    destruct done as [[|]|]; reflexivity.
  - intros m Hm. unfold handleMessage. rewrite Hm. auto.
Qed.

End UiFacts.

(** ** More on the poller *)

Section PollerRuns.
Import Poller.

Variable API_KEY : string.




Lemma poll_loop_done (op : Operation) (p : Z) (responses : list fetch) :
  done op = true ->
  poll_loop API_KEY op p responses =
  {| emitted := [completed API_KEY op]; state := Finished; unread := responses |}.
Proof. intros Hdone. destruct responses; cbn [poll_loop]; now rewrite Hdone. Qed.

Lemma poll_loop_extend (responses : list fetch) :
  forall (op : Operation) (p : Z) (later : list fetch),
    let r := poll_loop API_KEY op p responses in
    let r' := poll_loop API_KEY op p (responses ++ later) in
    exists more,
      emitted r' = emitted r ++ more
      /\ (state r = Finished ->
          more = [] /\ state r' = Finished /\ unread r' = unread r ++ later).
Proof.
  induction responses as [|[op'|msg] rest IH]; intros op p later; cbn [poll_loop app].
  - destruct (done op) eqn:Hdone.
    + rewrite (poll_loop_done op p later Hdone). cbn. exists []. auto.
    + cbn [emitted state]. eexists. split; [reflexivity|]. discriminate.
  - destruct (done op); cbn [emitted state unread].
    + exists []. rewrite app_nil_r. auto.
    + destruct (IH op' (Z.min (p + 5) 95) later) as (more & Hem & Hfin).
      exists more. cbv zeta in Hem. rewrite Hem. split; [reflexivity|exact Hfin].
  - destruct (done op); cbn [emitted state unread]; exists [];
      rewrite app_nil_r; auto.
Qed.

(** The snapshots a run has emitted do not depend on responses that come
    later: with more responses the run only goes on from where it was.  Once
    it has finished it emits nothing more and reads none of them. *)
Theorem poller_responses_later (operation : Operation) (responses later : list fetch) :
  let r := pollVeoOperation API_KEY operation responses in
  let r' := pollVeoOperation API_KEY operation (responses ++ later) in
  exists more,
    emitted r' = emitted r ++ more
    /\ (state r = Finished ->
        more = [] /\ state r' = Finished /\ unread r' = unread r ++ later).
Proof.
  destruct (poll_loop_extend responses operation 10 later) as (more & Hem & Hfin).
  exists more. unfold pollVeoOperation. cbn [emitted state unread].
  cbv zeta in Hem. rewrite Hem. split; [reflexivity|exact Hfin].
Qed.

End PollerRuns.

(** ** More on the playback of the live session *)

Section PlaybackMore.
Import Codec Live.

Context {time : Type} {clock : Clock time}.

(** When the audio of a message cannot be decoded the handler throws
    before it looks at the interruption flag: [nextStartTime] has been moved
    up to the current time, and nothing else has changed; in particular,
    when the same message signals an interruption, the sources that are
    playing are neither stopped nor removed. *)
Theorem onmessage_undecodable_audio (now : time) (message : LiveServerMessage)
    (audio : jsstring) (e : exn) (st : Playback time) :
  base64Audio message = Ok (Some audio) -> audio <> [] ->
  decode audio ≫= (fun bytes => decodeAudioData bytes 24000 1) = Throw e ->
  onmessage now message st
  = ({| nextStartTime := t_max (nextStartTime st) now;
        sources := sources st; nodes := nodes st |}, Throw e).
Proof.
  intros Haudio Hne Hdec. unfold onmessage. rewrite Haudio.
  destruct audio as [|c a]; [contradiction|].
  unfold schedule. rewrite Hdec. reflexivity.
Qed.

(** A source that has been scheduled stays as it is, with its buffer and
    its start time: a later message can only stop it, and only a message
    that signals an interruption does. *)
Theorem onmessage_keeps_nodes (now : time) (message : LiveServerMessage)
    (st : Playback time) (id : nat) (n : SourceNode time) :
  nodes st !! id = Some n ->
  let st' := fst (onmessage now message st) in
  nodes st' !! id = Some n
  \/ (is_interrupted message = true /\ nodes st' !! id = Some (stop n)).
Proof.
  intros Hn. cbv zeta. unfold onmessage.
  destruct (base64Audio message) as [audio|e]; [|left; exact Hn].
  assert (Hint : forall st1 : Playback time,
             nodes st1 !! id = Some n ->
             nodes (fst (if is_interrupted message then (interrupt st1, Ok tt)
                         else (st1, Ok tt))) !! id = Some n
             \/ (is_interrupted message = true
                 /\ nodes (fst (if is_interrupted message then (interrupt st1, Ok tt)
                                else (st1, Ok tt))) !! id = Some (stop n))).
  { intros st1 H1. destruct (is_interrupted message); cbn [fst]; [|left; exact H1].
    rewrite (proj2 (proj2 (interrupt_spec st1)) id), H1.
    destruct (decide (id ∈ sources st1)); cbn; auto. }
  destruct audio as [[|c a]|]; [apply Hint, Hn| |apply Hint, Hn].
  destruct (schedule now (c :: a) st) as [st1 r] eqn:Hs.
  pose proof (proj2 (schedule_keeps _ _ _ _ _ Hs) id n Hn) as H1.
  destruct r as [[]|e]; [apply Hint, H1|left; exact H1].
Qed.

End PlaybackMore.

Section PlaybackMoreRuns.
Import Codec Live.

Lemma sources_playing_witness :
  exists n : SourceNode Q,
    nodes (fst (onmessage (5 # 1)%Q (frame_message two_samples) initial)) !! 0%nat
    = Some n
    /\ node_stopped n = false.
Proof.
  apply (sources_playing
           (fst (onmessage (5 # 1)%Q (frame_message two_samples) initial))).
  - apply reach_message, reach_initial.
  - apply (bool_decide_unpack _). vm_compute. exact I.
Defined.

Lemma onmessage_undecodable_audio_witness :
  let message :=
    {| serverContent :=
         Some {| modelTurn :=
                   Some {| parts :=
                             Some [{| inlineData :=
                                        Some {| data := Some (of_string "AA==") |} |}] |};
                 interrupted := Some true |} |} in
  let playing := fst (onmessage (5 # 1)%Q (frame_message two_samples) idle) in
  onmessage (6 # 1)%Q message playing
  = ({| nextStartTime := t_max (nextStartTime playing) (6 # 1)%Q;
        sources := sources playing; nodes := nodes playing |}, Throw RangeError).
Proof.
  apply (onmessage_undecodable_audio (6 # 1)%Q _ (of_string "AA==") RangeError).
  - reflexivity.
  - discriminate.
  - reflexivity.
Defined.

Lemma onmessage_keeps_nodes_witness :
  let playing := fst (onmessage (5 # 1)%Q (frame_message two_samples) idle) in
  let n := {| node_buffer := two_samples_buffer; node_start := (5 # 1)%Q;
              node_stopped := false |} in
  let st' := fst (onmessage (6 # 1)%Q interruption_message playing) in
  nodes st' !! 0%nat = Some n
  \/ (is_interrupted interruption_message = true /\ nodes st' !! 0%nat = Some (stop n)).
Proof.
  apply (onmessage_keeps_nodes (6 # 1)%Q interruption_message
           (fst (onmessage (5 # 1)%Q (frame_message two_samples) idle)) 0
           {| node_buffer := two_samples_buffer; node_start := (5 # 1)%Q;
              node_stopped := false |}).
  reflexivity.
Defined.

End PlaybackMoreRuns.

(** ** Opening a session and closing it *)

Section SessionRuns.
Import Live.

Lemma stop_tracks_live (n i : nat) :
  stop_tracks i (replicate n LiveTrack)
  = (replicate n EndedTrack, map (fun k => (Track k, Released)) (seq i n)).
Proof.
  revert i. induction n as [|n IH]; intros i; [reflexivity|].
  cbn [replicate stop_tracks track_stop seq map]. now rewrite IH.
Qed.

(** A session that was opened and is closed once: with a microphone of
    [n] tracks, [close()] releases the capture pipeline, the input context,
    each of the [n] tracks, the output context and the remote session, one
    call each and in this order, and nothing stays in use.  When the
    microphone was refused the handle still closes what there is: the output
    context and the remote session, and it makes no other call. *)
Theorem close_after_open :
  (forall n : nat,
      exists r : Resources,
        returned (startLiveConversation Connected (Granted n)) = Ok r
        /\ all_live r
        /\ all_released (fst (close r))
        /\ snd (close r)
           = [(CapturePipeline, Released); (InputContext, Released)]
             ++ map (fun k => (Track k, Released)) (seq 0 n)
             ++ [(OutputContext, Released); (RemoteSession, Released)])
  /\ (forall e : exn,
        exists r : Resources,
          returned (startLiveConversation Connected (Denied e)) = Ok r
          /\ all_released (fst (close r))
          /\ snd (close r) = [(OutputContext, Released); (RemoteSession, Released)]).
Proof.
  split.
  - intros n. eexists. split; [reflexivity|].
    unfold close. cbn [scriptProcessor inputAudioContext audioStream
      outputAudioContext session close_processor close_input close_stream
      close_output close_session disconnect context_close socket_close].
    rewrite stop_tracks_live. cbn [fst snd].
    split_and!.
    + unfold all_live. cbn. split_and!; auto.
      exists (replicate n LiveTrack). split; [reflexivity|].
      apply Forall_forall. intros t Ht. apply elem_of_replicate in Ht as [-> _].
      reflexivity.
    + unfold all_released. cbn. split_and!; try discriminate; auto.
      intros tracks [= <-]. apply Forall_forall. intros t Ht.
      apply elem_of_replicate in Ht as [-> _]. reflexivity.
    + reflexivity.
  - intros e. eexists. split; [reflexivity|]. split; [|reflexivity].
    unfold all_released. cbn. split_and!; try discriminate; auto.
Qed.

End SessionRuns.
